(** * Sliding window maximum with a monotonic index deque

    A shallow embedding of [src/code/script.c]: the array-backed [Deque]
    with its two cursors, the deque primitives, and the scan
    [slidingWindowMaximum], followed by the properties the specification
    states about them.

    Modelling decisions.
    - A C [int] is a [Z]; every arithmetic operation the code performs on an
      [int] is checked against the 32-bit range and a result outside it is
      the fault [Overflow] (signed overflow is undefined in C).
    - The block returned by [malloc] is a [list (option Z)]: [None] is a
      cell that was never written.  An access outside the block is the
      fault [OutOfBounds], a read of an unwritten cell is [Uninitialised].
      [malloc] itself is assumed to succeed and to return [capacity] cells
      (none for a negative [capacity]).
    - The program owns one [Deque], reached through the pointer [dq]; the
      [world] holds that object ([None] before [createDeque] and after
      [destroyDeque]), what [printf] has written so far, and a ghost
      [history] of the deque mutations, which the program never reads.
    - Loops carry fuel computed from the state they start in; running out
      of it is the fault [OutOfFuel].
    - [main], which only reads the input and calls the scan, is not
      modelled: the scan takes [nums], [n] and [k] as [main] passes them. *)

From stdpp Require Import base tactics option list list_numbers sorting.
From Stdlib Require Import ZArith Lia.

#[local] Open Scope Z_scope.

(** ** Faults and the state-and-fault monad *)

Inductive fault : Type :=
  | OutOfBounds
  | Uninitialised
  | Overflow
  | NullDeref
  | OutOfFuel.

Inductive result (A : Type) : Type :=
  | Ok (a : A)
  | Fault (f : fault).

Arguments Ok {A} a.
Arguments Fault {A} f.

(** [typedef struct { int *data; int front; int rear; int size; } Deque;] *)
Record Deque : Type := mkDeque {
  dq_data : list (option Z);
  dq_front : Z;
  dq_rear : Z;
  dq_size : Z
}.

(** Ghost record of a deque mutation.  A pop records the cell its cursor
    pointed at when the call was made. *)
Inductive event : Type :=
  | Pushed (val : Z)
  | PoppedFront (cell : option Z)
  | PoppedBack (cell : option Z).

Record world : Type := mkWorld {
  heap : option Deque;
  stdout : list Z;
  history : list event
}.

Definition M (A : Type) : Type := world → result (A * world).

Definition ret {A} (a : A) : M A := λ w, Ok (a, w).

Definition bind {A B} (m : M A) (f : A → M B) : M B :=
  λ w, match m w with
       | Ok (a, w') => f a w'
       | Fault e => Fault e
       end.

Definition raise {A} (e : fault) : M A := λ _, Fault e.

Notation "x <- m ;; k" := (bind m (λ x, k))
  (at level 100, m at next level, right associativity).
Notation "m ;; k" := (bind m (λ _, k))
  (at level 100, right associativity).

Definition lift {A} (r : result A) : M A :=
  λ w, match r with Ok a => Ok (a, w) | Fault e => Fault e end.

(** ** Machine integers and arrays *)

Definition INT_MAX : Z := 2147483647.
Definition INT_MIN : Z := -2147483648.

Definition in_int (z : Z) : bool := (INT_MIN <=? z) && (z <=? INT_MAX).

(** The value of an [int] expression, or [Overflow]. *)
Definition int (z : Z) : result Z :=
  if in_int z then Ok z else Fault Overflow.

(** [a[p]], read, for a block whose cells may be unwritten. *)
Definition load (a : list (option Z)) (p : Z) : result Z :=
  if p <? 0 then Fault OutOfBounds
  else match a !! Z.to_nat p with
       | None => Fault OutOfBounds
       | Some None => Fault Uninitialised
       | Some (Some v) => Ok v
       end.

(** [a[p] = v]. *)
Definition store (a : list (option Z)) (p v : Z) : result (list (option Z)) :=
  if p <? 0 then Fault OutOfBounds
  else if p <? Z.of_nat (length a) then Ok (<[Z.to_nat p := Some v]> a)
  else Fault OutOfBounds.

(** [nums[p]] for the caller's fully initialised array. *)
Definition index (nums : list Z) (p : Z) : result Z :=
  if p <? 0 then Fault OutOfBounds
  else match nums !! Z.to_nat p with
       | None => Fault OutOfBounds
       | Some v => Ok v
       end.

(** The cell under a cursor, for the ghost history only. *)
Definition peek (a : list (option Z)) (p : Z) : option Z :=
  if p <? 0 then None else mjoin (a !! Z.to_nat p).

(** ** The deque *)

Definition deref : M Deque :=
  λ w, match heap w with
       | Some dq => Ok (dq, w)
       | None => Fault NullDeref
       end.

Definition assign (dq : Deque) : M unit :=
  λ w, Ok (tt, mkWorld (Some dq) (stdout w) (history w)).

Definition record (e : event) : M unit :=
  λ w, Ok (tt, mkWorld (heap w) (stdout w) (history w ++ [e])).

Definition createDeque (capacity : Z) : M unit :=
  assign (mkDeque (replicate (Z.to_nat capacity) None) 0 (-1) 0).

Definition destroyDeque : M unit :=
  _ <- deref;;
  λ w, Ok (tt, mkWorld None (stdout w) (history w)).

Definition isEmpty : M bool :=
  dq <- deref;;
  ret (dq_size dq =? 0).

Definition pushBack (val : Z) : M unit :=
  dq <- deref;;
  r <- lift (int (dq_rear dq + 1));;
  d <- lift (store (dq_data dq) r val);;
  s <- lift (int (dq_size dq + 1));;
  assign (mkDeque d (dq_front dq) r s);;
  record (Pushed val).

Definition popFront : M unit :=
  dq <- deref;;
  f <- lift (int (dq_front dq + 1));;
  s <- lift (int (dq_size dq - 1));;
  assign (mkDeque (dq_data dq) f (dq_rear dq) s);;
  record (PoppedFront (peek (dq_data dq) (dq_front dq))).

Definition popBack : M unit :=
  dq <- deref;;
  r <- lift (int (dq_rear dq - 1));;
  s <- lift (int (dq_size dq - 1));;
  assign (mkDeque (dq_data dq) (dq_front dq) r s);;
  record (PoppedBack (peek (dq_data dq) (dq_rear dq))).

Definition front : M Z :=
  dq <- deref;;
  lift (load (dq_data dq) (dq_front dq)).

Definition back : M Z :=
  dq <- deref;;
  lift (load (dq_data dq) (dq_rear dq)).

(** ** The scan *)

Definition printf (v : Z) : M unit :=
  λ w, Ok (tt, mkWorld (heap w) (stdout w ++ [v]) (history w)).

(** [if (!isEmpty(dq) && front(dq) <= i - k) popFront(dq);] *)
Definition remove_out_of_window (k i : Z) : M unit :=
  e <- isEmpty;;
  c <- (if negb e
       then f <- front;; t <- lift (int (i - k));; ret (f <=? t)
       else ret false);;
  if c then popFront else ret tt.

(** [while (!isEmpty(dq) && nums[back(dq)] < nums[i]) popBack(dq);] *)
Fixpoint remove_smaller_loop (fuel : nat) (nums : list Z) (i : Z) : M unit :=
  match fuel with
  | O => raise OutOfFuel
  | S fuel' =>
      e <- isEmpty;;
      c <- (if negb e
           then b <- back;;
                vb <- lift (index nums b);;
                vi <- lift (index nums i);;
                ret (vb <? vi)
           else ret false);;
      if c then popBack;; remove_smaller_loop fuel' nums i else ret tt
  end.

Definition remove_smaller_from_back (nums : list Z) (i : Z) : M unit :=
  dq <- deref;;
  remove_smaller_loop (S (Z.to_nat (dq_size dq))) nums i.

(** [if (i >= k - 1) printf("%d ", nums[front(dq)]);] *)
Definition output_result (nums : list Z) (k i : Z) : M unit :=
  t <- lift (int (k - 1));;
  if t <=? i
  then f <- front;; v <- lift (index nums f);; printf v
  else ret tt.

(** One iteration of the [for] loop. *)
Definition loop_body (nums : list Z) (k i : Z) : M unit :=
  remove_out_of_window k i;;
  remove_smaller_from_back nums i;;
  pushBack i;;
  output_result nums k i.

(** [for (int i = ...; i < n; i++) { ... }], entered with the given [i]. *)
Fixpoint for_loop (fuel : nat) (nums : list Z) (n k i : Z) : M unit :=
  match fuel with
  | O => raise OutOfFuel
  | S fuel' =>
      if i <? n
      then loop_body nums k i;;
           i' <- lift (int (i + 1));;
           for_loop fuel' nums n k i'
      else ret tt
  end.

Definition boot : world := mkWorld None [] [].

Definition slidingWindowMaximum (nums : list Z) (n k : Z) : result world :=
  match (createDeque n;;
         for_loop (S (Z.to_nat n)) nums n k 0;;
         destroyDeque) boot with
  | Ok (_, w) => Ok w
  | Fault e => Fault e
  end.

(** ** Observing the scan *)

(** The body run at each listed position in turn. *)
Fixpoint foreach (positions : list Z) (body : Z → M unit) : M unit :=
  match positions with
  | [] => ret tt
  | i :: rest => body i;; foreach rest body
  end.

(** The world the [for] loop of [slidingWindowMaximum nums n k] is in once
    it has completed its first [m] iterations (positions [0 .. m-1]);
    see [for_loop_passes_through]. *)
Definition after_positions (nums : list Z) (n k m : Z) : result world :=
  match (createDeque n;; foreach (seqZ 0 m) (loop_body nums k)) boot with
  | Ok (_, w) => Ok w
  | Fault e => Fault e
  end.

(** The cells between the two cursors, front to back. *)
Definition stored (dq : Deque) : list (option Z) :=
  peek (dq_data dq) <$> seqZ (dq_front dq) (dq_rear dq - dq_front dq + 1).

Definition pushed (h : list event) : list Z :=
  omap (λ e, match e with Pushed v => Some v | _ => None end) h.

Definition popped (h : list event) : list (option Z) :=
  omap (λ e, match e with
             | Pushed _ => None
             | PoppedFront c | PoppedBack c => Some c
             end) h.

(** ** What the specification asks for *)

(** [nums[p]] as a total function, for statements only. *)
Definition val (nums : list Z) (p : Z) : Z := default 0 (nums !! Z.to_nat p).

(** [nums[j..j+k-1]]. *)
Definition window (nums : list Z) (j k : Z) : list Z :=
  take (Z.to_nat k) (drop (Z.to_nat j) nums).

Definition is_max (m : Z) (xs : list Z) : Prop :=
  m ∈ xs ∧ Forall (λ x, x ≤ m) xs.

Definition maximum (xs : list Z) : Z :=
  match xs with
  | [] => 0
  | x :: xs' => foldr Z.max x xs'
  end.

(** The brute-force reference of the specification: one maximum per
    window position. *)
Definition brute_force (nums : list Z) (k : Z) : list Z :=
  (λ j, maximum (window nums j k)) <$> seqZ 0 (Z.of_nat (length nums) - k + 1).

(** Values at the stored indices do not increase from front to back, and
    the indices themselves increase. *)
Definition before (nums : list Z) (x y : Z) : Prop :=
  x < y ∧ val nums y ≤ val nums x.

(** What of a run the program itself can see: its result, the deque and
    the output, not the ghost history. *)
Definition visible {A} (r : result (A * world))
  : result (A * option Deque * list Z) :=
  match r with
  | Ok (a, w) => Ok (a, heap w, stdout w)
  | Fault e => Fault e
  end.

(** A command is [oblivious] when the history it starts from has no
    influence on what is visible of its run. *)
Definition oblivious {A} (m : M A) : Prop :=
  ∀ w1 w2, heap w1 = heap w2 → stdout w1 = stdout w2 →
           visible (m w1) = visible (m w2).

(** ** Invariants *)

(** [holds cap dq l]: the block of [dq] has [cap] cells, and the cells from
    [front] to [rear] are written and hold [l], front first. *)
Definition holds (cap : Z) (dq : Deque) (l : list Z) : Prop :=
  Z.of_nat (length (dq_data dq)) = cap
  ∧ 0 ≤ dq_front dq
  ∧ dq_rear dq = dq_front dq + Z.of_nat (length l) - 1
  ∧ dq_size dq = Z.of_nat (length l)
  ∧ dq_rear dq < cap
  ∧ ∀ (j : nat) d, l !! j = Some d →
      dq_data dq !! (Z.to_nat (dq_front dq) + j)%nat = Some (Some d).

Definition W (dq : Deque) (out : list Z) (h : list event) : world :=
  mkWorld (Some dq) out h.

(** After [m] positions the deque holds, in increasing order, exactly the
    indices of the window [m-k .. m-1] that have no larger value to their
    right. *)
Definition candidates (nums : list Z) (k m : Z) (l : list Z) : Prop :=
  StronglySorted (before nums) l
  ∧ ∀ p, p ∈ l ↔
      0 ≤ p ∧ m - k ≤ p < m ∧ ∀ q, p < q < m → val nums q ≤ val nums p.

Definition represents (cap : Z) (w : world) (l : list Z) : Prop :=
  ∃ dq, heap w = Some dq ∧ holds cap dq l.

(** What holds of the world once [m] positions have been processed. *)
Record scan_inv (nums : list Z) (n k m : Z) (w : world) (l : list Z) : Prop := {
  inv_deque : ∃ dq, heap w = Some dq ∧ holds n dq l ∧ dq_rear dq < m;
  inv_candidates : candidates nums k m l;
  inv_stdout :
    stdout w = (λ j, maximum (window nums j k)) <$> seqZ 0 (m - k + 1);
  inv_pushed : pushed (history w) = seqZ 0 m;
  inv_popped : ∃ ps, popped (history w) = Some <$> ps ∧ ps ++ l ≡ₚ seqZ 0 m
}.

Definition fresh (n : Z) : world :=
  W (mkDeque (replicate (Z.to_nat n) None) 0 (-1) 0) [] [].

(** The deque of a world, front to back. *)
Definition deque_of (w : world) : list (option Z) :=
  match heap w with
  | Some dq => stored dq
  | None => []
  end.

(** * Proofs *)

(** ** The scenarios of the specification *)

Example scenario_eight :
  slidingWindowMaximum [1; 3; -1; -3; 5; 3; 6; 7] 8 3
  = Ok (mkWorld None [3; 3; 5; 5; 6; 7]
          [Pushed 0; PoppedBack (Some 0); Pushed 1; Pushed 2; Pushed 3;
           PoppedFront (Some 1); PoppedBack (Some 3); PoppedBack (Some 2);
           Pushed 4; Pushed 5; PoppedBack (Some 5); PoppedBack (Some 4);
           Pushed 6; PoppedBack (Some 6); Pushed 7]).
Proof. reflexivity. Qed.

Example scenario_rising :
  slidingWindowMaximum [9; 11] 2 2
  = Ok (mkWorld None [11] [Pushed 0; PoppedBack (Some 0); Pushed 1]).
Proof. reflexivity. Qed.

Example scenario_falling :
  slidingWindowMaximum [4; -2] 2 2 = Ok (mkWorld None [4] [Pushed 0; Pushed 1]).
Proof. reflexivity. Qed.

Example scenario_brute_force :
  brute_force [1; 3; -1; -3; 5; 3; 6; 7] 3 = [3; 3; 5; 5; 6; 7].
Proof. reflexivity. Qed.

(** ** The monad *)

Lemma bind_ok {A B} (m : M A) (f : A → M B) w a w' :
  m w = Ok (a, w') → (x <- m;; f x) w = f a w'.
Proof. unfold bind. by intros ->. Qed.

Lemma bind_fault {A B} (m : M A) (f : A → M B) w e :
  m w = Fault e → (x <- m;; f x) w = Fault e.
Proof. unfold bind. by intros ->. Qed.

Lemma bind_assoc {A B C} (m : M A) (f : A → M B) (g : B → M C) w :
  (y <- (x <- m;; f x);; g y) w = (x <- m;; y <- f x;; g y) w.
Proof. unfold bind. destruct (m w) as [[a w']|e]; done. Qed.

Lemma int_ok z : INT_MIN ≤ z ≤ INT_MAX → int z = Ok z.
Proof.
  intros [H1 H2]. unfold int, in_int.
  apply Z.leb_le in H1, H2. by rewrite H1, H2.
Qed.

Lemma foreach_app xs ys body w :
  foreach (xs ++ ys) body w = (foreach xs body;; foreach ys body) w.
Proof.
  revert w. induction xs as [|x xs IH]; intros w; simpl.
  - done.
  - rewrite bind_assoc. unfold bind at 1 2.
    destruct (body x w) as [[[] w']|e]; [apply IH | done].
Qed.

(** ** The history is ghost state *)

Create HintDb oblivious.

Lemma oblivious_ret {A} (a : A) : oblivious (ret a).
Proof. intros w1 w2 Hh Ho. unfold ret; simpl. by rewrite Hh, Ho. Qed.

Lemma oblivious_raise {A} e : oblivious (@raise A e).
Proof. by intros w1 w2 _ _. Qed.

Lemma oblivious_lift {A} (r : result A) : oblivious (lift r).
Proof. intros w1 w2 Hh Ho. unfold lift. destruct r; simpl; by rewrite ?Hh, ?Ho. Qed.

Lemma oblivious_bind {A B} (m : M A) (f : A → M B) :
  oblivious m → (∀ a, oblivious (f a)) → oblivious (x <- m;; f x).
Proof.
  intros Hm Hf w1 w2 Hh Ho. specialize (Hm w1 w2 Hh Ho). unfold bind.
  destruct (m w1) as [[a1 w1']|e1], (m w2) as [[a2 w2']|e2]; simplify_eq/=;
    [by apply Hf|done].
Qed.

Lemma oblivious_deref : oblivious deref.
Proof.
  intros w1 w2 Hh Ho. unfold deref. rewrite Hh.
  destruct (heap w2) eqn:Hw2; simpl; [|done]. by rewrite Hh, Ho, Hw2.
Qed.

Lemma oblivious_assign dq : oblivious (assign dq).
Proof. intros w1 w2 Hh Ho. unfold assign; simpl. by rewrite Ho. Qed.

Lemma oblivious_record e : oblivious (record e).
Proof. intros w1 w2 Hh Ho. unfold record; simpl. by rewrite Hh, Ho. Qed.

Lemma oblivious_printf v : oblivious (printf v).
Proof. intros w1 w2 Hh Ho. unfold printf; simpl. by rewrite Hh, Ho. Qed.

Lemma oblivious_if {A} (b : bool) (m1 m2 : M A) :
  oblivious m1 → oblivious m2 → oblivious (if b then m1 else m2).
Proof. by destruct b. Qed.

#[local] Hint Resolve oblivious_ret oblivious_raise oblivious_lift
  oblivious_deref oblivious_assign oblivious_record oblivious_printf
  oblivious_if : oblivious.

#[local] Hint Extern 2 (oblivious (bind _ _)) =>
  apply oblivious_bind; [|intros ?] : oblivious.

Ltac oblivious := unfold isEmpty, front, back, pushBack, popFront, popBack,
  destroyDeque; auto 20 with oblivious.

Lemma oblivious_remove_out_of_window k i : oblivious (remove_out_of_window k i).
Proof. unfold remove_out_of_window. oblivious. Qed.

Lemma oblivious_remove_smaller_loop fuel nums i :
  oblivious (remove_smaller_loop fuel nums i).
Proof. induction fuel as [|fuel IH]; simpl; oblivious. Qed.

Lemma oblivious_output_result nums k i : oblivious (output_result nums k i).
Proof. unfold output_result. oblivious. Qed.

Lemma oblivious_loop_body nums k i : oblivious (loop_body nums k i).
Proof.
  unfold loop_body, remove_smaller_from_back.
  pose proof (oblivious_remove_out_of_window k i).
  pose proof (λ fuel, oblivious_remove_smaller_loop fuel nums i).
  pose proof (oblivious_output_result nums k i).
  oblivious.
Qed.

(** The scan never looks at the history: started from any two worlds that
    agree on the deque and the output, the loop yields the same deque and
    the same output, or the same fault. *)
Lemma oblivious_for_loop fuel nums n k i : oblivious (for_loop fuel nums n k i).
Proof.
  revert i. induction fuel as [|fuel IH]; intros i; simpl; [oblivious|].
  pose proof (oblivious_loop_body nums k i). oblivious.
Qed.

(** ** The deque represents a list of indices *)

Lemma holds_createDeque n : 0 ≤ n → holds n (mkDeque (replicate (Z.to_nat n) None) 0 (-1) 0) [].
Proof.
  intros Hn. unfold holds; simpl. rewrite length_replicate.
  repeat split; try lia. intros j d Hj. by rewrite lookup_nil in Hj.
Qed.

Lemma holds_stored cap dq l : holds cap dq l → stored dq = Some <$> l.
Proof.
  intros (Hcap & Hf & Hr & Hs & Hlt & Hcells). unfold stored.
  apply list_eq. intros j. rewrite !list_lookup_fmap.
  destruct (l !! j) as [d|] eqn:Hj; simpl.
  - rewrite lookup_seqZ_lt by (apply lookup_lt_Some in Hj; lia). simpl.
    unfold peek. rewrite (proj2 (Z.ltb_ge _ _)) by lia.
    replace (Z.to_nat (dq_front dq + Z.of_nat j)) with (Z.to_nat (dq_front dq) + j)%nat by lia.
    by rewrite (Hcells j d Hj).
  - rewrite lookup_seqZ_ge by (apply lookup_ge_None in Hj; lia). done.
Qed.

Lemma isEmpty_spec cap dq l out h :
  holds cap dq l →
  isEmpty (W dq out h) = Ok (bool_decide (l = []), W dq out h).
Proof.
  intros (_ & _ & _ & Hs & _). unfold isEmpty, bind, deref, ret; simpl.
  do 2 f_equal. rewrite Hs. destruct l as [|d l].
  - by rewrite bool_decide_eq_true_2.
  - rewrite bool_decide_eq_false_2 by done. apply Z.eqb_neq. simpl. lia.
Qed.

Lemma front_spec cap dq d l out h :
  holds cap dq (d :: l) → front (W dq out h) = Ok (d, W dq out h).
Proof.
  intros (_ & Hf & _ & _ & _ & Hcells). unfold front, bind, deref, lift, load; simpl.
  rewrite (proj2 (Z.ltb_ge _ _)) by lia.
  specialize (Hcells 0%nat d eq_refl). rewrite Nat.add_0_r in Hcells.
  by rewrite Hcells.
Qed.

Lemma back_spec cap dq d l out h :
  holds cap dq (l ++ [d]) → back (W dq out h) = Ok (d, W dq out h).
Proof.
  intros (_ & Hf & Hr & _ & _ & Hcells). unfold back, bind, deref, lift, load; simpl.
  rewrite length_app in Hr; simpl in Hr.
  rewrite (proj2 (Z.ltb_ge _ _)) by lia.
  specialize (Hcells (length l) d). rewrite lookup_app_r, Nat.sub_diag in Hcells by lia.
  replace (Z.to_nat (dq_rear dq)) with (Z.to_nat (dq_front dq) + length l)%nat by lia.
  by rewrite Hcells.
Qed.

Lemma popFront_spec cap dq d l out h :
  cap ≤ INT_MAX →
  holds cap dq (d :: l) →
  ∃ dq', popFront (W dq out h) = Ok (tt, W dq' out (h ++ [PoppedFront (Some d)]))
         ∧ holds cap dq' l
         ∧ dq_rear dq' = dq_rear dq.
Proof.
  intros Hmax (Hcap & Hf & Hr & Hs & Hlt & Hcells). simpl in Hr, Hs.
  exists (mkDeque (dq_data dq) (dq_front dq + 1) (dq_rear dq) (dq_size dq - 1)).
  unfold popFront, bind, deref, lift, assign, record, W; simpl.
  rewrite !int_ok by (unfold INT_MIN; lia). simpl.
  split; [|split; [|reflexivity]].
  - do 4 f_equal. unfold peek. rewrite (proj2 (Z.ltb_ge _ _)) by lia.
    specialize (Hcells 0%nat d eq_refl). rewrite Nat.add_0_r in Hcells.
    by rewrite Hcells.
  - unfold holds; simpl. repeat split; try lia.
    intros j e Hj. specialize (Hcells (S j) e Hj).
    by replace (Z.to_nat (dq_front dq + 1) + j)%nat with (Z.to_nat (dq_front dq) + S j)%nat by lia.
Qed.

Lemma popBack_spec cap dq d l out h :
  cap ≤ INT_MAX →
  holds cap dq (l ++ [d]) →
  ∃ dq', popBack (W dq out h) = Ok (tt, W dq' out (h ++ [PoppedBack (Some d)]))
         ∧ holds cap dq' l
         ∧ dq_rear dq' = dq_rear dq - 1.
Proof.
  intros Hmax (Hcap & Hf & Hr & Hs & Hlt & Hcells).
  rewrite length_app in Hr, Hs; simpl in Hr, Hs.
  exists (mkDeque (dq_data dq) (dq_front dq) (dq_rear dq - 1) (dq_size dq - 1)).
  unfold popBack, bind, deref, lift, assign, record, W; simpl.
  rewrite !int_ok by (unfold INT_MIN; lia). simpl.
  split; [|split; [|reflexivity]].
  - do 4 f_equal. unfold peek. rewrite (proj2 (Z.ltb_ge _ _)) by lia.
    specialize (Hcells (length l) d). rewrite lookup_app_r, Nat.sub_diag in Hcells by lia.
    replace (Z.to_nat (dq_rear dq)) with (Z.to_nat (dq_front dq) + length l)%nat by lia.
    by rewrite Hcells.
  - unfold holds; simpl. repeat split; try lia.
    intros j e Hj. apply Hcells. by apply lookup_app_l_Some.
Qed.

Lemma pushBack_spec cap dq v l out h :
  cap ≤ INT_MAX →
  holds cap dq l →
  dq_rear dq + 1 < cap →
  ∃ dq', pushBack v (W dq out h) = Ok (tt, W dq' out (h ++ [Pushed v]))
         ∧ holds cap dq' (l ++ [v])
         ∧ dq_rear dq' = dq_rear dq + 1.
Proof.
  intros Hmax (Hcap & Hf & Hr & Hs & Hlt & Hcells) Hroom.
  exists (mkDeque (<[Z.to_nat (dq_rear dq + 1) := Some v]> (dq_data dq))
            (dq_front dq) (dq_rear dq + 1) (dq_size dq + 1)).
  unfold pushBack, bind, deref, lift, assign, record, W, store; simpl.
  rewrite !int_ok by (unfold INT_MIN; lia). simpl.
  rewrite (proj2 (Z.ltb_ge _ _)) by lia.
  rewrite (proj2 (Z.ltb_lt _ _)) by lia. simpl.
  rewrite ?int_ok by (unfold INT_MIN; lia). simpl.
  split; [reflexivity|split; [|reflexivity]].
  unfold holds; simpl. rewrite length_insert, length_app; simpl.
  repeat split; try lia.
  intros j e Hj.
  destruct (decide (j = length l)) as [->|Hne].
  - rewrite lookup_app_r, Nat.sub_diag in Hj by lia. simplify_eq/=.
    replace (Z.to_nat (dq_rear dq + 1)) with (Z.to_nat (dq_front dq) + length l)%nat by lia.
    apply list_lookup_insert_eq. lia.
  - assert (j < length l)%nat.
    { apply lookup_lt_Some in Hj. rewrite length_app in Hj; simpl in Hj. lia. }
    rewrite lookup_app_l in Hj by done.
    rewrite list_lookup_insert_ne by lia. by apply Hcells.
Qed.

Lemma index_ok nums p :
  0 ≤ p < Z.of_nat (length nums) → index nums p = Ok (val nums p).
Proof.
  intros Hp. unfold index, val. rewrite (proj2 (Z.ltb_ge _ _)) by lia.
  destruct (lookup_lt_is_Some_2 nums (Z.to_nat p)) as [v Hv]; [lia|].
  by rewrite Hv.
Qed.

Lemma lift_index nums p w :
  0 ≤ p < Z.of_nat (length nums) → lift (index nums p) w = Ok (val nums p, w).
Proof. intros Hp. unfold lift. by rewrite index_ok. Qed.

Lemma lift_int z w : INT_MIN ≤ z ≤ INT_MAX → lift (int z) w = Ok (z, w).
Proof. intros Hz. unfold lift. by rewrite int_ok. Qed.

Lemma ret_ok {A} (a : A) w : ret a w = Ok (a, w).
Proof. done. Qed.

(** Run the next command of a sequence with the equation [H] for it. *)
Ltac run H := rewrite ?bind_assoc; rewrite (bind_ok _ _ _ _ _ H).

(** ** The three steps of an iteration, on the represented list *)

Lemma remove_out_of_window_spec cap k i dq l out h :
  cap ≤ INT_MAX →
  INT_MIN ≤ i - k ≤ INT_MAX →
  holds cap dq l →
  ∃ dq' gone l',
    remove_out_of_window k i (W dq out h)
      = Ok (tt, W dq' out (h ++ (PoppedFront ∘ Some <$> gone)))
    ∧ holds cap dq' l'
    ∧ dq_rear dq' = dq_rear dq
    ∧ l = gone ++ l'
    ∧ ((gone = [] ∧ ∀ d t, l = d :: t → i - k < d)
       ∨ ∃ d, gone = [d] ∧ d ≤ i - k).
Proof.
  intros Hmax Hik Hdq. unfold remove_out_of_window.
  rewrite (bind_ok _ _ _ _ _ (isEmpty_spec _ _ _ out h Hdq)).
  destruct l as [|d t].
  - rewrite bool_decide_eq_true_2 by done. simpl.
    exists dq, [], []. rewrite app_nil_r. unfold bind, ret; simpl.
    repeat (split; [done|]). left. split; [done|]. intros ? ? [=].
  - rewrite bool_decide_eq_false_2 by done. simpl.
    run (front_spec _ _ _ _ out h Hdq).
    run (lift_int (i - k) (W dq out h) Hik).
    run (ret_ok (d <=? i - k) (W dq out h)).
    destruct (Z.leb_spec d (i - k)) as [Hle|Hgt].
    + destruct (popFront_spec cap dq d t out h Hmax Hdq) as (dq' & Hrun & Hdq' & Hrear).
      exists dq', [d], t. repeat (split; [done|]). right. by exists d.
    + exists dq, [], (d :: t). rewrite app_nil_r. unfold ret.
      repeat (split; [done|]). left. split; [done|]. by intros ? ? [= <- <-].
Qed.

Lemma remove_smaller_loop_spec cap nums i l :
  cap ≤ INT_MAX →
  0 ≤ i < Z.of_nat (length nums) →
  Forall (λ d, 0 ≤ d < Z.of_nat (length nums)) l →
  ∀ fuel dq out h,
    (length l < fuel)%nat →
    holds cap dq l →
    ∃ dq' l' gone,
      remove_smaller_loop fuel nums i (W dq out h)
        = Ok (tt, W dq' out (h ++ (PoppedBack ∘ Some <$> reverse gone)))
      ∧ holds cap dq' l'
      ∧ dq_rear dq' ≤ dq_rear dq
      ∧ l = l' ++ gone
      ∧ Forall (λ d, val nums d < val nums i) gone
      ∧ (∀ d, last l' = Some d → val nums i ≤ val nums d).
Proof.
  intros Hmax Hi. induction l as [|d l IH] using rev_ind;
    intros Hl fuel dq out h Hfuel Hdq;
    (destruct fuel as [|fuel]; [simpl in Hfuel; lia|]); simpl.
  - rewrite (bind_ok _ _ _ _ _ (isEmpty_spec _ _ _ out h Hdq)).
    rewrite bool_decide_eq_true_2 by done. simpl.
    exists dq, [], []. rewrite app_nil_r. unfold bind, ret; simpl.
    repeat (split; [done|]). intros d [=].
  - apply Forall_app in Hl as [Hl Hd]. rewrite Forall_singleton in Hd.
    run (isEmpty_spec _ _ _ out h Hdq).
    rewrite bool_decide_eq_false_2 by (by destruct l). simpl.
    run (back_spec _ _ _ _ out h Hdq).
    run (lift_index nums d (W dq out h) Hd).
    run (lift_index nums i (W dq out h) Hi).
    run (ret_ok (val nums d <? val nums i) (W dq out h)).
    destruct (Z.ltb_spec (val nums d) (val nums i)) as [Hlt|Hge].
    + destruct (popBack_spec cap dq d l out h Hmax Hdq) as (dq1 & Hpop & Hdq1 & Hrear1).
      run Hpop.
      rewrite length_app in Hfuel; simpl in Hfuel.
      destruct (IH Hl fuel dq1 out (h ++ [PoppedBack (Some d)]) ltac:(lia) Hdq1)
        as (dq' & l' & gone & -> & Hdq' & Hrear & -> & Hgone & Hlast).
      exists dq', l', (gone ++ [d]).
      rewrite reverse_app, fmap_app, <- !app_assoc. simpl.
      repeat (split; [done || lia|]).
      split; [|done]. apply Forall_app. split; [done|]. by apply Forall_singleton.
    + exists dq, (l ++ [d]), []. rewrite !app_nil_r. unfold ret.
      repeat (split; [done || lia|]).
      intros d'. rewrite last_snoc. intros [= <-]. lia.
Qed.

Lemma remove_smaller_from_back_spec cap nums i l dq out h :
  cap ≤ INT_MAX →
  0 ≤ i < Z.of_nat (length nums) →
  Forall (λ d, 0 ≤ d < Z.of_nat (length nums)) l →
  holds cap dq l →
  ∃ dq' l' gone,
    remove_smaller_from_back nums i (W dq out h)
      = Ok (tt, W dq' out (h ++ (PoppedBack ∘ Some <$> reverse gone)))
    ∧ holds cap dq' l'
    ∧ dq_rear dq' ≤ dq_rear dq
    ∧ l = l' ++ gone
    ∧ Forall (λ d, val nums d < val nums i) gone
    ∧ (∀ d, last l' = Some d → val nums i ≤ val nums d).
Proof.
  intros Hmax Hi Hl Hdq. unfold remove_smaller_from_back.
  rewrite (bind_ok _ _ (W dq out h) dq (W dq out h) eq_refl).
  apply (remove_smaller_loop_spec cap); auto.
  destruct Hdq as (_ & _ & _ & -> & _). lia.
Qed.

Lemma output_result_spec cap nums k i dq d t out h :
  INT_MIN ≤ k - 1 ≤ INT_MAX →
  0 ≤ d < Z.of_nat (length nums) →
  holds cap dq (d :: t) →
  output_result nums k i (W dq out h)
    = Ok (tt, W dq (out ++ if k - 1 <=? i then [val nums d] else []) h).
Proof.
  intros Hk Hd Hdq. unfold output_result, bind at 1, lift at 1.
  rewrite int_ok by done.
  destruct (k - 1 <=? i).
  - rewrite (bind_ok _ _ _ _ _ (front_spec _ _ _ _ out h Hdq)).
    unfold bind, lift. by rewrite index_ok.
  - unfold ret. by rewrite app_nil_r.
Qed.

(** ** The candidate list *)

Lemma candidates_nil nums k : candidates nums k 0 [].
Proof.
  split; [constructor|]. intros p. split; [by intros ?%elem_of_nil|lia].
Qed.

(** Some index of [p .. m-1] holds the largest value of that range. *)
Lemma argmax_from nums m (t : nat) p :
  p + Z.of_nat t = m - 1 →
  ∃ d, p ≤ d < m ∧ ∀ q, p ≤ q < m → val nums q ≤ val nums d.
Proof.
  revert p. induction t as [|t IH]; intros p Hp.
  - exists p. split; [lia|]. intros q Hq. by replace q with p by lia.
  - destruct (IH (p + 1) ltac:(lia)) as (d & Hd & Hmax).
    destruct (Z.le_gt_cases (val nums p) (val nums d)) as [Hle|Hgt].
    + exists d. split; [lia|]. intros q Hq.
      destruct (decide (q = p)) as [->|]; [done|]. apply Hmax. lia.
    + exists p. split; [lia|]. intros q Hq.
      destruct (decide (q = p)) as [->|]; [done|].
      etrans; [apply Hmax; lia|lia].
Qed.

(** The front candidate holds the maximum of the window. *)
Lemma candidates_front nums k m d t :
  candidates nums k m (d :: t) →
  ∀ p, 0 ≤ p → m - k ≤ p < m → val nums p ≤ val nums d.
Proof.
  intros [Hsorted Hmem] p Hp0 Hp.
  destruct (argmax_from nums m (Z.to_nat (m - 1 - p)) p ltac:(lia))
    as (c & Hc & Hmax).
  assert (c ∈ d :: t) as Hin.
  { apply Hmem. repeat split; try lia. intros q Hq. apply Hmax. lia. }
  etrans; [apply (Hmax p); lia|].
  apply StronglySorted_cons in Hsorted as [Hd _].
  apply elem_of_cons in Hin as [->|Hin]; [done|].
  rewrite Forall_forall in Hd. by destruct (Hd c Hin).
Qed.

(** The expiry step keeps exactly the candidates to the right of [m-k]. *)
Lemma expiry_keeps nums k m l gone1 l1 :
  candidates nums k m l →
  l = gone1 ++ l1 →
  (gone1 = [] ∧ (∀ d t, l = d :: t → m - k < d))
    ∨ (∃ d, gone1 = [d] ∧ d ≤ m - k) →
  ∀ p, p ∈ l1 ↔ p ∈ l ∧ m - k < p.
Proof.
  intros [Hsorted Hmem] Hl Hgone1 p.
  destruct Hgone1 as [[-> Hhead]|(d & -> & Hd)]; simpl in Hl; subst l.
  - split; [|tauto]. intros Hp. split; [done|].
    destruct l1 as [|d t]; [by apply elem_of_nil in Hp|].
    specialize (Hhead d t eq_refl).
    apply StronglySorted_cons in Hsorted as [Hd _].
    apply elem_of_cons in Hp as [->|Hp]; [done|].
    rewrite Forall_forall in Hd. destruct (Hd p Hp). lia.
  - assert (d = m - k) as -> by (pose proof (proj1 (Hmem d) ltac:(left)); lia).
    apply StronglySorted_cons in Hsorted as [Hd' _].
    rewrite Forall_forall in Hd'. rewrite elem_of_cons. split.
    + intros Hp. destruct (Hd' p Hp). split; [by right|lia].
    + intros [[->|Hp] Hlt]; [lia|done].
Qed.

Lemma candidates_step nums k m l gone1 l1 l2 gone2 :
  1 ≤ k → 0 ≤ m →
  candidates nums k m l →
  l = gone1 ++ l1 →
  (gone1 = [] ∧ (∀ d t, l = d :: t → m - k < d))
    ∨ (∃ d, gone1 = [d] ∧ d ≤ m - k) →
  l1 = l2 ++ gone2 →
  Forall (λ d, val nums d < val nums m) gone2 →
  (∀ d, last l2 = Some d → val nums m ≤ val nums d) →
  candidates nums k (m + 1) (l2 ++ [m]).
Proof.
  intros Hk Hm Hcand Hl Hgone1 Hl1 Hgone2 Hlast.
  pose proof (expiry_keeps nums k m l gone1 l1 Hcand Hl Hgone1) as Hmem1.
  destruct Hcand as [Hsorted Hmem].
  assert (StronglySorted (before nums) l1) as Hsorted1.
  { rewrite Hl in Hsorted. by apply StronglySorted_app_1_r in Hsorted. }
  (* what the dominated step keeps *)
  assert (StronglySorted (before nums) l2) as Hsorted2.
  { rewrite Hl1 in Hsorted1. by apply StronglySorted_app_1_l in Hsorted1. }
  assert (Forall (λ x, val nums m ≤ val nums x) l2) as Hkept.
  { destruct (last l2) as [d|] eqn:Hd.
    - specialize (Hlast d eq_refl). apply last_Some in Hd as [l2' ->].
      apply Forall_app. split; [|by apply Forall_singleton].
      apply Forall_forall. intros x Hx.
      destruct (StronglySorted_app_1_elem_of _ _ _ x d Hsorted2 Hx ltac:(left)).
      lia.
    - apply last_None in Hd as ->. constructor. }
  rewrite Forall_forall in Hkept, Hgone2.
  assert (∀ p, p ∈ l2 ↔ p ∈ l1 ∧ val nums m ≤ val nums p) as Hmem2.
  { intros p. rewrite Hl1, elem_of_app. split.
    - intros Hp. split; [by left|by apply Hkept].
    - intros [[Hp|Hp] Hv]; [done|]. specialize (Hgone2 p Hp). lia. }
  split.
  - apply StronglySorted_app_2; [|done|repeat constructor].
    intros x y Hx ->%list_elem_of_singleton.
    split; [|by apply Hkept].
    apply Hmem2 in Hx as [Hx _]. apply Hmem1 in Hx as [Hx _].
    apply Hmem in Hx. lia.
  - intros p. rewrite elem_of_app, list_elem_of_singleton, Hmem2, Hmem1, Hmem.
    split.
    + intros [[[(Hp0 & Hp & Hright) Hlt] Hv]| ->].
      * repeat split; try lia. intros q Hq.
        destruct (decide (q = m)) as [->|]; [done|]. apply Hright. lia.
      * repeat split; lia.
    + intros (Hp0 & Hp & Hright).
      destruct (decide (p = m)) as [->|]; [by right|]. left.
      repeat split; try lia.
      * intros q Hq. apply Hright. lia.
      * apply Hright. lia.
Qed.

(** ** Windows and their maxima *)

Lemma maximum_is_max xs : xs ≠ [] → is_max (maximum xs) xs.
Proof.
  destruct xs as [|x xs]; [done|]. intros _. simpl.
  induction xs as [|y xs [IHin IHle]]; simpl.
  - split; [by left|]. by apply Forall_singleton.
  - apply Forall_cons in IHle as [Hx Hxs]. split.
    + destruct (Z.max_spec y (foldr Z.max x xs)) as [[_ ->]|[_ ->]].
      * apply elem_of_cons in IHin as [->|Hin]; [by left|]. by do 2 right.
      * right. by left.
    + repeat constructor; try lia.
      eapply Forall_impl; [done|]. simpl. lia.
Qed.

Lemma is_max_unique m1 m2 xs : is_max m1 xs → is_max m2 xs → m1 = m2.
Proof.
  intros [Hin1 Hle1] [Hin2 Hle2]. rewrite Forall_forall in Hle1, Hle2.
  specialize (Hle1 m2 Hin2). specialize (Hle2 m1 Hin1). lia.
Qed.

Lemma elem_of_window nums j k x :
  0 ≤ j →
  x ∈ window nums j k ↔
  ∃ p, j ≤ p < j + k ∧ nums !! Z.to_nat p = Some x.
Proof.
  intros Hj. unfold window. rewrite list_elem_of_lookup. split.
  - intros [t Ht]. apply lookup_take_Some in Ht as [Ht Hlt].
    rewrite lookup_drop in Ht. exists (j + Z.of_nat t). split; [lia|].
    by replace (Z.to_nat (j + Z.of_nat t)) with (Z.to_nat j + t)%nat by lia.
  - intros (p & Hp & Hx). exists (Z.to_nat (p - j)).
    apply lookup_take_Some. split; [|lia]. rewrite lookup_drop.
    by replace (Z.to_nat j + Z.to_nat (p - j))%nat with (Z.to_nat p) by lia.
Qed.

Lemma val_lookup nums p :
  0 ≤ p < Z.of_nat (length nums) → nums !! Z.to_nat p = Some (val nums p).
Proof.
  intros Hp. unfold val.
  destruct (lookup_lt_is_Some_2 nums (Z.to_nat p)) as [v Hv]; [lia|].
  by rewrite Hv.
Qed.

(** An index of the window that dominates the window holds its maximum. *)
Lemma is_max_window nums j k d :
  0 ≤ j → j + k ≤ Z.of_nat (length nums) →
  j ≤ d < j + k →
  (∀ p, j ≤ p < j + k → val nums p ≤ val nums d) →
  is_max (val nums d) (window nums j k).
Proof.
  intros Hj Hjk Hd Hmax. split.
  - apply elem_of_window; [done|]. exists d. split; [done|].
    apply val_lookup. lia.
  - apply Forall_forall. intros x (p & Hp & Hx)%elem_of_window; [|done].
    rewrite val_lookup in Hx by lia. injection Hx as <-. by apply Hmax.
Qed.

Lemma maximum_window nums j k d :
  0 ≤ j → j + k ≤ Z.of_nat (length nums) →
  j ≤ d < j + k →
  (∀ p, j ≤ p < j + k → val nums p ≤ val nums d) →
  maximum (window nums j k) = val nums d.
Proof.
  intros Hj Hjk Hd Hmax.
  pose proof (is_max_window nums j k d Hj Hjk Hd Hmax) as His.
  apply (is_max_unique _ _ (window nums j k)); [|done].
  apply maximum_is_max. intros Hnil. destruct His as [Hin _].
  rewrite Hnil in Hin. by apply elem_of_nil in Hin.
Qed.

(** ** The ghost history *)

Lemma pushed_app h1 h2 : pushed (h1 ++ h2) = pushed h1 ++ pushed h2.
Proof. apply omap_app. Qed.

Lemma popped_app h1 h2 : popped (h1 ++ h2) = popped h1 ++ popped h2.
Proof. apply omap_app. Qed.

Lemma pushed_pops (c : Z → event) gone :
  (∀ d, c d = PoppedFront (Some d) ∨ c d = PoppedBack (Some d)) →
  pushed (c <$> gone) = [].
Proof.
  intros Hc. induction gone as [|d gone IH]; [done|].
  rewrite fmap_cons. change (c d :: (c <$> gone)) with ([c d] ++ (c <$> gone)).
  rewrite pushed_app, IH. by destruct (Hc d) as [-> | ->].
Qed.

Lemma popped_pops (c : Z → event) gone :
  (∀ d, c d = PoppedFront (Some d) ∨ c d = PoppedBack (Some d)) →
  popped (c <$> gone) = Some <$> gone.
Proof.
  intros Hc. induction gone as [|d gone IH]; [done|].
  rewrite !fmap_cons. change (c d :: (c <$> gone)) with ([c d] ++ (c <$> gone)).
  rewrite popped_app, IH. by destruct (Hc d) as [-> | ->].
Qed.

Lemma history_length h :
  length h = (length (pushed h) + length (popped h))%nat.
Proof.
  induction h as [|e h IH]; [done|].
  change (e :: h) with ([e] ++ h).
  rewrite pushed_app, popped_app, !length_app, IH. destruct e; simpl; lia.
Qed.

(** ** The scan invariant is kept by an iteration *)

Lemma scan_inv_createDeque nums n k :
  0 ≤ n → 1 ≤ k →
  ∃ w, createDeque n boot = Ok (tt, w) ∧ scan_inv nums n k 0 w [].
Proof.
  intros Hn Hk. eexists. split; [reflexivity|]. split; simpl.
  - eexists. split; [done|]. split; [by apply holds_createDeque|]. simpl. lia.
  - apply candidates_nil.
  - by rewrite seqZ_nil by lia.
  - done.
  - by exists [].
Qed.

(** An iteration at a position [m] inside both the block of the deque
    ([n] cells) and the array [nums]. *)
Lemma loop_body_steps_within nums n k m w l :
  m < Z.of_nat (length nums) → n ≤ INT_MAX → 1 ≤ k ≤ INT_MAX → 0 ≤ m < n →
  scan_inv nums n k m w l →
  ∃ w1 l1 gone1 w2 l2 gone2 w3 w4,
    remove_out_of_window k m w = Ok (tt, w1)
    ∧ remove_smaller_from_back nums m w1 = Ok (tt, w2)
    ∧ pushBack m w2 = Ok (tt, w3)
    ∧ output_result nums k m w3 = Ok (tt, w4)
    ∧ l = gone1 ++ l1 ∧ l1 = l2 ++ gone2
    ∧ represents n w1 l1 ∧ represents n w2 l2 ∧ represents n w3 (l2 ++ [m])
    ∧ Forall (λ d, m - k < d) l1
    ∧ Forall (λ d, val nums d < val nums m) gone2
    ∧ scan_inv nums n k (m + 1) w4 (l2 ++ [m]).
Proof.
  intros Hn Hmax Hk Hm [(dq & Hheap & Hdq & Hrear) Hcand Hout Hpushed (ps & Hpopped & Hperm)].
  destruct w as [hp out h]. simpl in *. subst hp.
  change (mkWorld (Some dq) out h) with (W dq out h).
  assert (∀ p, p ∈ l → 0 ≤ p < m) as Hrange.
  { intros p Hp. apply Hcand in Hp. lia. }
  (* expiry *)
  destruct (remove_out_of_window_spec n k m dq l out h Hmax) as
    (dq1 & gone1 & l1 & Hrun1 & Hdq1 & Hrear1 & Hl & Hgone1);
    [unfold INT_MIN, INT_MAX in *; lia|done|].
  pose proof (expiry_keeps nums k m l gone1 l1 Hcand Hl Hgone1) as Hmem1.
  (* dominated *)
  destruct (remove_smaller_from_back_spec n nums m l1 dq1 out
              (h ++ (PoppedFront ∘ Some <$> gone1)) Hmax) as
    (dq2 & l2 & gone2 & Hrun2 & Hdq2 & Hrear2 & Hl1 & Hgone2 & Hlast);
    [lia| |done|].
  { apply Forall_forall. intros p Hp. apply Hmem1 in Hp as [Hp _].
    apply Hrange in Hp. lia. }
  (* admission *)
  destruct (pushBack_spec n dq2 m l2 out
              ((h ++ (PoppedFront ∘ Some <$> gone1))
                 ++ (PoppedBack ∘ Some <$> reverse gone2)) Hmax Hdq2) as
    (dq3 & Hrun3 & Hdq3 & Hrear3); [lia|].
  pose proof (candidates_step nums k m l gone1 l1 l2 gone2
                ltac:(lia) ltac:(lia) Hcand Hl Hgone1 Hl1 Hgone2 Hlast) as Hcand3.
  (* output *)
  destruct (l2 ++ [m]) as [|d t] eqn:Hl3; [by destruct l2|].
  assert (0 ≤ d ∧ m + 1 - k ≤ d < m + 1) as Hd.
  { pose proof (proj1 (proj2 Hcand3 d) ltac:(left)). lia. }
  eexists _, l1, gone1, _, l2, gone2, _, _.
  split; [exact Hrun1|]. split; [exact Hrun2|]. split; [exact Hrun3|].
  split.
  { apply (output_result_spec n nums k m dq3 d t);
      [unfold INT_MIN, INT_MAX in *; lia|lia|exact Hdq3]. }
  split; [done|]. split; [done|].
  split; [by exists dq1|]. split; [by exists dq2|].
  rewrite Hl3. split; [by exists dq3|].
  split; [apply Forall_forall; intros p Hp; by apply Hmem1 in Hp as [_ ?]|].
  split; [done|].
  split; simpl.
  - exists dq3. split; [done|]. split; [done|]. lia.
  - done.
  - rewrite Hout. destruct (Z.leb_spec (k - 1) m) as [Hready|Hnot].
    + replace (m + 1 - k + 1) with ((m - k + 1) + 1) by lia.
      rewrite (seqZ_app 0 (m - k + 1) 1) by lia. rewrite fmap_app. f_equal.
      rewrite seqZ_cons, seqZ_nil by lia. simpl. f_equal.
      symmetry. apply maximum_window; try lia.
      intros p Hp. apply (candidates_front nums k (m + 1) d t Hcand3); lia.
    + rewrite app_nil_r. by rewrite !seqZ_nil by lia.
  - rewrite !pushed_app, Hpushed, !pushed_pops by auto. simpl.
    rewrite !app_nil_r, (seqZ_app 0 m 1) by lia. f_equal.
  - exists (ps ++ gone1 ++ reverse gone2). split.
    + rewrite !popped_app, Hpopped, !popped_pops by auto. simpl.
      by rewrite app_nil_r, !fmap_app, app_assoc.
    + rewrite <- Hl3, (seqZ_app 0 m 1), <- Hperm, Hl, Hl1 by lia.
      rewrite reverse_Permutation. rewrite seqZ_cons, seqZ_nil by lia.
      rewrite Z.add_0_l, <- !app_assoc. do 2 f_equiv. rewrite !app_assoc. f_equiv.
      apply Permutation_app_comm.
Qed.

Lemma loop_body_steps nums n k m w l :
  n = Z.of_nat (length nums) → n ≤ INT_MAX → 1 ≤ k ≤ INT_MAX → 0 ≤ m < n →
  scan_inv nums n k m w l →
  ∃ w1 l1 gone1 w2 l2 gone2 w3 w4,
    remove_out_of_window k m w = Ok (tt, w1)
    ∧ remove_smaller_from_back nums m w1 = Ok (tt, w2)
    ∧ pushBack m w2 = Ok (tt, w3)
    ∧ output_result nums k m w3 = Ok (tt, w4)
    ∧ l = gone1 ++ l1 ∧ l1 = l2 ++ gone2
    ∧ represents n w1 l1 ∧ represents n w2 l2 ∧ represents n w3 (l2 ++ [m])
    ∧ Forall (λ d, m - k < d) l1
    ∧ Forall (λ d, val nums d < val nums m) gone2
    ∧ scan_inv nums n k (m + 1) w4 (l2 ++ [m]).
Proof.
  intros Hn Hmax Hk Hm. apply loop_body_steps_within; [lia|done..].
Qed.

Lemma loop_body_inv nums n k m w l :
  n = Z.of_nat (length nums) → n ≤ INT_MAX → 1 ≤ k ≤ INT_MAX → 0 ≤ m < n →
  scan_inv nums n k m w l →
  ∃ w' l', loop_body nums k m w = Ok (tt, w') ∧ scan_inv nums n k (m + 1) w' l'.
Proof.
  intros Hn Hmax Hk Hm Hinv.
  destruct (loop_body_steps nums n k m w l Hn Hmax Hk Hm Hinv) as
    (w1 & l1 & gone1 & w2 & l2 & gone2 & w3 & w4
     & Hrun1 & Hrun2 & Hrun3 & Hrun4 & _ & _ & _ & _ & _ & _ & _ & Hinv').
  exists w4, (l2 ++ [m]). split; [|done].
  unfold loop_body. run Hrun1. run Hrun2. by run Hrun3.
Qed.

(** ** The loop *)

Lemma after_positions_fresh nums n k m :
  after_positions nums n k m =
  match foreach (seqZ 0 m) (loop_body nums k) (fresh n) with
  | Ok (_, w) => Ok w
  | Fault e => Fault e
  end.
Proof. done. Qed.

Lemma foreach_snoc xs i body w w' :
  foreach xs body w = Ok (tt, w') →
  foreach (xs ++ [i]) body w = body i w'.
Proof.
  intros Hxs. rewrite foreach_app. run Hxs. simpl.
  unfold bind. by destruct (body i w') as [[[] w'']|e].
Qed.

Lemma foreach_inv nums n k (m : nat) :
  n = Z.of_nat (length nums) → n ≤ INT_MAX → 1 ≤ k ≤ INT_MAX →
  Z.of_nat m ≤ n →
  ∃ w l, foreach (seqZ 0 (Z.of_nat m)) (loop_body nums k) (fresh n) = Ok (tt, w)
         ∧ scan_inv nums n k (Z.of_nat m) w l.
Proof.
  intros Hn Hmax Hk. induction m as [|m IH]; intros Hm.
  - destruct (scan_inv_createDeque nums n k) as (w & [= <-] & Hinv); [lia..|].
    by exists (fresh n), [].
  - destruct IH as (w & l & Hrun & Hinv); [lia|].
    destruct (loop_body_inv nums n k (Z.of_nat m) w l) as (w' & l' & Hbody & Hinv');
      [done|done|done|lia|done|].
    exists w', l'. rewrite seqZ_S, Z.add_0_l.
    split; [by rewrite (foreach_snoc _ _ _ _ _ Hrun)|].
    by replace (Z.of_nat (S m)) with (Z.of_nat m + 1) by lia.
Qed.

Lemma after_positions_inv nums n k m :
  n = Z.of_nat (length nums) → n ≤ INT_MAX → 1 ≤ k ≤ INT_MAX →
  0 ≤ m ≤ n →
  ∃ w l, after_positions nums n k m = Ok w ∧ scan_inv nums n k m w l.
Proof.
  intros Hn Hmax Hk Hm.
  destruct (foreach_inv nums n k (Z.to_nat m) Hn Hmax Hk ltac:(lia))
    as (w & l & Hrun & Hinv).
  rewrite Z2Nat.id in Hrun, Hinv by lia.
  exists w, l. split; [|done]. by rewrite after_positions_fresh, Hrun.
Qed.

(** The [for] loop runs its body at [i], [i+1], ..., [n-1]. *)
Lemma for_loop_foreach nums n k :
  n ≤ INT_MAX →
  ∀ fuel i w,
    0 ≤ i → (Z.to_nat (n - i) < fuel)%nat →
    for_loop fuel nums n k i w = foreach (seqZ i (n - i)) (loop_body nums k) w.
Proof.
  intros Hmax. induction fuel as [|fuel IH]; intros i w Hi Hfuel; [lia|]. simpl.
  destruct (Z.ltb_spec i n) as [Hlt|Hge].
  - rewrite seqZ_cons by lia. simpl. unfold bind at 1 3.
    destruct (loop_body nums k i w) as [[[] w']|e]; [|done].
    rewrite (bind_ok _ _ _ _ _ (lift_int (i + 1) w' ltac:(unfold INT_MIN; lia))).
    rewrite IH by lia. f_equal. f_equal; lia.
  - by rewrite seqZ_nil by lia.
Qed.

(** After [m] iterations the loop is in the world [after_positions] names,
    about to test [m < n]. *)
Lemma for_loop_passes_through nums n k m w :
  n ≤ INT_MAX → 0 ≤ m ≤ n →
  for_loop (S (Z.to_nat n)) nums n k 0 w
  = (foreach (seqZ 0 m) (loop_body nums k);;
     for_loop (S (Z.to_nat (n - m))) nums n k m) w.
Proof.
  intros Hmax Hm. rewrite for_loop_foreach by lia.
  replace (n - 0) with (m + (n - m)) by lia.
  rewrite seqZ_app, foreach_app by lia. unfold bind.
  destruct (foreach (seqZ 0 m) (loop_body nums k) w) as [[[] w']|e]; [|done].
  rewrite for_loop_foreach by lia. by rewrite Z.add_0_l.
Qed.

Lemma slidingWindowMaximum_after nums n k w :
  n ≤ INT_MAX →
  after_positions nums n k n = Ok w →
  is_Some (heap w) →
  slidingWindowMaximum nums n k = Ok (mkWorld None (stdout w) (history w)).
Proof.
  intros Hmax Hrun [dq Hdq]. rewrite after_positions_fresh in Hrun.
  unfold slidingWindowMaximum.
  rewrite (bind_ok _ _ boot tt (fresh n) eq_refl).
  unfold bind at 1. rewrite for_loop_foreach, Z.sub_0_r by lia.
  destruct (foreach (seqZ 0 n) (loop_body nums k) (fresh n)) as [[[] w']|e];
    [|done].
  injection Hrun as ->. unfold destroyDeque, bind, deref. by rewrite Hdq.
Qed.

(** The whole scan, for every window size from [1] up. *)
Lemma slidingWindowMaximum_inv nums n k :
  n = Z.of_nat (length nums) → n ≤ INT_MAX → 1 ≤ k ≤ INT_MAX →
  ∃ w l, after_positions nums n k n = Ok w
         ∧ scan_inv nums n k n w l
         ∧ slidingWindowMaximum nums n k
           = Ok (mkWorld None (stdout w) (history w)).
Proof.
  intros Hn Hmax Hk.
  destruct (after_positions_inv nums n k n Hn Hmax Hk ltac:(lia))
    as (w & l & Hrun & Hinv).
  exists w, l. split; [done|]. split; [done|].
  apply slidingWindowMaximum_after; [done..|].
  destruct (inv_deque _ _ _ _ _ _ Hinv) as (dq & -> & _). by eexists.
Qed.

Lemma val_seqZ nums n :
  n = Z.of_nat (length nums) → val nums <$> seqZ 0 n = nums.
Proof.
  intros ->. apply list_eq. intros i. rewrite list_lookup_fmap.
  destruct (decide (i < length nums)%nat) as [Hi|Hi].
  - rewrite lookup_seqZ_lt by lia. simpl. rewrite Z.add_0_l.
    rewrite <- (Nat2Z.id i) at 2. symmetry. apply val_lookup. lia.
  - rewrite lookup_seqZ_ge by lia. by rewrite lookup_ge_None_2 by lia.
Qed.

Lemma window_nonempty nums j k :
  0 ≤ j → 1 ≤ k → j < Z.of_nat (length nums) → window nums j k ≠ [].
Proof.
  intros Hj Hk Hlen Hnil.
  assert (val nums j ∈ window nums j k) as Hin.
  { apply elem_of_window; [done|]. exists j. split; [lia|]. by apply val_lookup. }
  rewrite Hnil in Hin. by apply elem_of_nil in Hin.
Qed.

Lemma represents_deque_of cap w l : represents cap w l → deque_of w = Some <$> l.
Proof.
  intros (dq & Hheap & Hdq). unfold deque_of. rewrite Hheap.
  by apply (holds_stored cap).
Qed.

Lemma scan_inv_represents nums n k m w l :
  scan_inv nums n k m w l → represents n w l.
Proof. intros [(dq & ? & ? & _) _ _ _ _]. by exists dq. Qed.

Lemma after_positions_succ nums n k m w w' :
  0 ≤ m →
  after_positions nums n k m = Ok w →
  loop_body nums k m w = Ok (tt, w') →
  after_positions nums n k (m + 1) = Ok w'.
Proof.
  intros Hm Hrun Hbody. rewrite after_positions_fresh in *.
  destruct (foreach (seqZ 0 m) (loop_body nums k) (fresh n)) as [[[] w0]|e] eqn:Hloop;
    [|done].
  injection Hrun as ->. rewrite (seqZ_app 0 m 1) by lia.
  rewrite (seqZ_cons (0 + m) 1), (seqZ_nil _ (Z.pred 1)), Z.add_0_l by lia.
  by rewrite (foreach_snoc _ _ _ _ _ Hloop), Hbody.
Qed.

(** ** Window sizes outside [1 .. n] *)

(** With [k <= 0] every position expires its predecessor: after [m]
    positions the deque holds [m-1] alone and every value has been
    printed. *)
Lemma foreach_nonpositive_window_upto nums n k (m : nat) :
  n = Z.of_nat (length nums) → n ≤ INT_MAX → INT_MIN < k ≤ 0 →
  Z.of_nat m ≤ n → Z.of_nat m - 1 - k ≤ INT_MAX →
  ∃ dq h,
    foreach (seqZ 0 (Z.of_nat m)) (loop_body nums k) (fresh n)
      = Ok (tt, W dq (val nums <$> seqZ 0 (Z.of_nat m)) h)
    ∧ holds n dq (if m is O then [] else [Z.of_nat m - 1])
    ∧ dq_rear dq < Z.of_nat m.
Proof.
  intros Hn Hmax Hk. induction m as [|m IH]; intros Hm Hfit.
  - eexists _, []. split; [reflexivity|].
    split; [apply holds_createDeque; lia|simpl; lia].
  - destruct IH as (dq & h & Hrun & Hdq & Hrear); [lia..|].
    set (l := if m is O then [] else [Z.of_nat m - 1]) in *.
    set (out := val nums <$> seqZ 0 (Z.of_nat m)) in *.
    destruct (remove_out_of_window_spec n k (Z.of_nat m) dq l out h Hmax) as
      (dq1 & gone1 & l1 & Hrun1 & Hdq1 & Hrear1 & Hl & Hgone1);
      [unfold INT_MIN, INT_MAX in *; lia|done|].
    assert (l1 = []) as ->.
    { destruct Hgone1 as [[-> Hhead]|(d & -> & _)].
      - simpl in Hl. subst l1. subst l. destruct m as [|m]; [done|].
        specialize (Hhead _ _ eq_refl). lia.
      - subst l. destruct m as [|m]; [done|]. by injection Hl as _ <-. }
    destruct (remove_smaller_from_back_spec n nums (Z.of_nat m) [] dq1 out
                (h ++ (PoppedFront ∘ Some <$> gone1)) Hmax) as
      (dq2 & l2 & gone2 & Hrun2 & Hdq2 & Hrear2 & Hl1 & _);
      [lia|constructor|done|].
    symmetry in Hl1. apply app_eq_nil in Hl1 as [-> ->].
    destruct (pushBack_spec n dq2 (Z.of_nat m) [] out
                ((h ++ (PoppedFront ∘ Some <$> gone1))
                   ++ (PoppedBack ∘ Some <$> reverse [])) Hmax Hdq2) as
      (dq3 & Hrun3 & Hdq3 & Hrear3); [lia|].
    simpl in Hdq3.
    pose proof (output_result_spec n nums k (Z.of_nat m) dq3 (Z.of_nat m) [] out
                  (((h ++ (PoppedFront ∘ Some <$> gone1))
                      ++ (PoppedBack ∘ Some <$> reverse [])) ++ [Pushed (Z.of_nat m)])
                  ltac:(unfold INT_MIN, INT_MAX in *; lia) ltac:(lia) Hdq3) as Hrun4.
    rewrite (proj2 (Z.leb_le _ _)) in Hrun4 by lia.
    eexists dq3, _. rewrite seqZ_S, Z.add_0_l, fmap_app. split; [|split].
    + rewrite (foreach_snoc _ _ _ _ _ Hrun). unfold loop_body.
      run Hrun1. run Hrun2. run Hrun3. exact Hrun4.
    + by replace (Z.of_nat (S m) - 1) with (Z.of_nat m) by lia.
    + lia.
Qed.

Lemma foreach_nonpositive_window nums n k (m : nat) :
  n = Z.of_nat (length nums) → n ≤ INT_MAX → n - INT_MAX ≤ k ≤ 0 →
  Z.of_nat m ≤ n →
  ∃ dq h,
    foreach (seqZ 0 (Z.of_nat m)) (loop_body nums k) (fresh n)
      = Ok (tt, W dq (val nums <$> seqZ 0 (Z.of_nat m)) h)
    ∧ holds n dq (if m is O then [] else [Z.of_nat m - 1])
    ∧ dq_rear dq < Z.of_nat m.
Proof.
  intros Hn Hmax Hk Hm.
  apply foreach_nonpositive_window_upto; unfold INT_MIN, INT_MAX in *; lia.
Qed.

(** * The claims *)

(** C1. For a sequence [nums] of length [n] and a window size [k] with
    [1 <= k <= n], the scan completes and prints exactly [n-k+1] integers;
    the [j]-th of them is the maximum of [nums[j..j+k-1]], so the output is
    that of the brute-force reference. *)
Theorem slidingWindowMaximum_window_maxima nums n k :
  n = Z.of_nat (length nums) → n ≤ INT_MAX → 1 ≤ k ≤ n →
  ∃ w, slidingWindowMaximum nums n k = Ok w
       ∧ Z.of_nat (length (stdout w)) = n - k + 1
       ∧ (∀ j, 0 ≤ j ≤ n - k →
            ∃ v, stdout w !! Z.to_nat j = Some v ∧ is_max v (window nums j k))
       ∧ stdout w = brute_force nums k.
Proof.
  intros Hn Hmax Hk.
  destruct (slidingWindowMaximum_inv nums n k Hn Hmax ltac:(lia))
    as (w & l & _ & Hinv & Hrun).
  destruct Hinv as [_ _ Hout _ _].
  eexists. split; [exact Hrun|]. simpl. rewrite Hout.
  split; [|split].
  - rewrite length_fmap, length_seqZ. lia.
  - intros j Hj. exists (maximum (window nums j k)). split.
    + rewrite list_lookup_fmap, lookup_seqZ_lt by lia. simpl.
      do 3 f_equal. lia.
    + apply maximum_is_max, window_nonempty; lia.
  - unfold brute_force. by rewrite <- Hn.
Qed.

Lemma slidingWindowMaximum_window_maxima_witness :
  ∃ w, slidingWindowMaximum [1; 3; -1; -3; 5; 3; 6; 7] 8 3 = Ok w
       ∧ Z.of_nat (length (stdout w)) = 8 - 3 + 1
       ∧ (∀ j, 0 ≤ j ≤ 8 - 3 →
            ∃ v, stdout w !! Z.to_nat j = Some v
                 ∧ is_max v (window [1; 3; -1; -3; 5; 3; 6; 7] j 3))
       ∧ stdout w = brute_force [1; 3; -1; -3; 5; 3; 6; 7] 3.
Proof.
  apply (slidingWindowMaximum_window_maxima [1; 3; -1; -3; 5; 3; 6; 7] 8 3);
    [reflexivity | unfold INT_MAX; lia | lia].
Defined.

(** C2, as the code has it.  The scan does not validate [k].  A window
    larger than the sequence makes it run to completion printing nothing; a
    window size below [1] makes it run to completion printing every value
    once.  Neither signals an error. *)
Theorem invalid_window_runs_unchecked nums n k :
  n = Z.of_nat (length nums) → n ≤ INT_MAX →
  n - INT_MAX ≤ k < 1 ∨ n < k ≤ INT_MAX →
  ∃ w, slidingWindowMaximum nums n k = Ok w
       ∧ stdout w = if k <? 1 then nums else [].
Proof.
  intros Hn Hmax [Hk|Hk].
  - destruct (foreach_nonpositive_window nums n k (Z.to_nat n) Hn Hmax ltac:(lia) ltac:(lia))
      as (dq & h & Hrun & _).
    rewrite Z2Nat.id in Hrun by lia.
    eexists. split.
    + apply (slidingWindowMaximum_after nums n k (W dq (val nums <$> seqZ 0 n) h));
        [done| |by eexists].
      by rewrite after_positions_fresh, Hrun.
    + simpl. rewrite (proj2 (Z.ltb_lt _ _)) by lia. by apply val_seqZ.
  - destruct (slidingWindowMaximum_inv nums n k Hn Hmax ltac:(lia))
      as (w & l & _ & Hinv & Hrun).
    eexists. split; [exact Hrun|]. simpl.
    rewrite (proj2 (Z.ltb_ge _ _)) by lia.
    rewrite (inv_stdout _ _ _ _ _ _ Hinv). by rewrite seqZ_nil by lia.
Qed.

Lemma invalid_window_runs_unchecked_witness :
  ∃ w, slidingWindowMaximum [5; 6] 2 3 = Ok w
       ∧ stdout w = if 3 <? 1 then [5; 6] else [].
Proof.
  apply (invalid_window_runs_unchecked [5; 6] 2 3);
    [reflexivity | unfold INT_MAX; lia | right; unfold INT_MAX; lia].
Defined.

(** C2 fails as stated: with [k = 0] the scan signals nothing and prints
    the one value of the sequence. *)
Lemma zero_window_not_rejected :
  slidingWindowMaximum [5] 1 0 = Ok (mkWorld None [5] [Pushed 0])
  ∧ ¬ ∃ e, slidingWindowMaximum [5] 1 0 = Fault e.
Proof. split; [reflexivity|]. by intros [e ?]. Qed.

(** C3, as the code has it.  With [n = 0] the loop tests [0 < 0] and
    leaves without running its body: the scan completes normally, prints
    nothing and performs no deque operation, whatever [k] is.  No error is
    signalled. *)
Theorem empty_input_completes nums k :
  (∀ fuel w, for_loop (S fuel) nums 0 k 0 w = Ok (tt, w))
  ∧ slidingWindowMaximum nums 0 k = Ok (mkWorld None [] [])
  ∧ ∀ e, slidingWindowMaximum nums 0 k ≠ Fault e.
Proof.
  assert (∀ fuel w, for_loop (S fuel) nums 0 k 0 w = Ok (tt, w)) as Hloop.
  { by intros fuel w. }
  split; [exact Hloop|].
  assert (slidingWindowMaximum nums 0 k = Ok (mkWorld None [] [])) as Hrun.
  { unfold slidingWindowMaximum.
    rewrite (bind_ok _ _ boot tt (fresh 0) eq_refl).
    by rewrite (bind_ok _ _ _ _ _ (Hloop _ (fresh 0))). }
  split; [exact Hrun|]. intros e. by rewrite Hrun.
Qed.

(** C3 fails as stated: on the empty sequence no error of any kind is
    signalled. *)
Lemma empty_input_not_rejected :
  slidingWindowMaximum [] 0 1 = Ok (mkWorld None [] [])
  ∧ ¬ ∃ e, slidingWindowMaximum [] 0 1 = Fault e.
Proof. split; [reflexivity|]. by intros [e ?]. Qed.

(** C4. After the steps for position [i] every stored index lies in
    [i-k+1 .. i]; and already after the expiry step of position [i], which
    pops the front at most once, no stored index is [<= i-k]. *)
Theorem stored_indices_in_window nums n k i :
  n = Z.of_nat (length nums) → n ≤ INT_MAX → 1 ≤ k ≤ n → 0 ≤ i < n →
  (∃ w l, after_positions nums n k (i + 1) = Ok w
          ∧ deque_of w = Some <$> l
          ∧ Forall (λ d, i - k + 1 ≤ d ≤ i) l)
  ∧ (∃ w0 w1 l1, after_positions nums n k i = Ok w0
                 ∧ remove_out_of_window k i w0 = Ok (tt, w1)
                 ∧ deque_of w1 = Some <$> l1
                 ∧ Forall (λ d, i - k < d) l1).
Proof.
  intros Hn Hmax Hk Hi. split.
  - destruct (after_positions_inv nums n k (i + 1) Hn Hmax ltac:(lia) ltac:(lia))
      as (w & l & Hrun & Hinv).
    exists w, l. split; [done|].
    split; [by eapply represents_deque_of, scan_inv_represents|].
    apply Forall_forall. intros d Hd.
    apply (proj2 (inv_candidates _ _ _ _ _ _ Hinv)) in Hd. lia.
  - destruct (after_positions_inv nums n k i Hn Hmax ltac:(lia) ltac:(lia))
      as (w0 & l & Hrun & Hinv).
    destruct (loop_body_steps nums n k i w0 l Hn Hmax ltac:(lia) Hi Hinv) as
      (w1 & l1 & gone1 & w2 & l2 & gone2 & w3 & w4
       & Hrun1 & _ & _ & _ & _ & _ & Hw1 & _ & _ & Hl1 & _).
    exists w0, w1, l1. repeat (split; [done|]).
    split; [by eapply represents_deque_of|done].
Qed.

Lemma stored_indices_in_window_witness :
  (∃ w l, after_positions [1; 3; -1; -3; 5; 3; 6; 7] 8 3 (4 + 1) = Ok w
          ∧ deque_of w = Some <$> l
          ∧ Forall (λ d, 4 - 3 + 1 ≤ d ≤ 4) l)
  ∧ (∃ w0 w1 l1, after_positions [1; 3; -1; -3; 5; 3; 6; 7] 8 3 4 = Ok w0
                 ∧ remove_out_of_window 3 4 w0 = Ok (tt, w1)
                 ∧ deque_of w1 = Some <$> l1
                 ∧ Forall (λ d, 4 - 3 < d) l1).
Proof.
  apply (stored_indices_in_window [1; 3; -1; -3; 5; 3; 6; 7] 8 3 4);
    [reflexivity | unfold INT_MAX; lia | lia | lia].
Defined.

(** C5. After every processed position the values at the stored indices,
    read from the front of the deque to the back, are non-increasing. *)
Theorem stored_values_non_increasing nums n k i :
  n = Z.of_nat (length nums) → n ≤ INT_MAX → 1 ≤ k ≤ n → 0 ≤ i < n →
  ∃ w l, after_positions nums n k (i + 1) = Ok w
         ∧ deque_of w = Some <$> l
         ∧ Forall (λ d, nums !! Z.to_nat d = Some (val nums d)) l
         ∧ StronglySorted (λ x y, y ≤ x) (val nums <$> l).
Proof.
  intros Hn Hmax Hk Hi.
  destruct (after_positions_inv nums n k (i + 1) Hn Hmax ltac:(lia) ltac:(lia))
    as (w & l & Hrun & Hinv).
  exists w, l. split; [done|].
  split; [by eapply represents_deque_of, scan_inv_represents|].
  destruct (inv_candidates _ _ _ _ _ _ Hinv) as [Hsorted Hmem]. split.
  - apply Forall_forall. intros d Hd. apply Hmem in Hd. apply val_lookup. lia.
  - eapply StronglySorted_fmap; [|done]. by intros x y [_ ?].
Qed.

Lemma stored_values_non_increasing_witness :
  ∃ w l, after_positions [1; 3; -1; -3; 5; 3; 6; 7] 8 3 (3 + 1) = Ok w
         ∧ deque_of w = Some <$> l
         ∧ Forall (λ d, [1; 3; -1; -3; 5; 3; 6; 7] !! Z.to_nat d
                        = Some (val [1; 3; -1; -3; 5; 3; 6; 7] d)) l
         ∧ StronglySorted (λ x y, y ≤ x) (val [1; 3; -1; -3; 5; 3; 6; 7] <$> l).
Proof.
  apply (stored_values_non_increasing [1; 3; -1; -3; 5; 3; 6; 7] 8 3 3);
    [reflexivity | unfold INT_MAX; lia | lia | lia].
Defined.

(** C6. The dominated step pops only indices whose value is strictly
    smaller than [nums[i]], so an equal value stays.  Hence, after position
    [i], every index of the window whose value is the window maximum is in
    the deque; of two stored indices with equal values the right one is
    still stored whenever the left one is, at every later position; and the
    value printed for the window is the value at any of its maximal
    indices. *)
Theorem ties_are_kept nums n k i :
  n = Z.of_nat (length nums) → n ≤ INT_MAX → 1 ≤ k ≤ n → 0 ≤ i < n →
  (∃ w0 w1 w2 l2 gone,
     after_positions nums n k i = Ok w0
     ∧ remove_out_of_window k i w0 = Ok (tt, w1)
     ∧ remove_smaller_from_back nums i w1 = Ok (tt, w2)
     ∧ deque_of w1 = Some <$> (l2 ++ gone)
     ∧ deque_of w2 = Some <$> l2
     ∧ Forall (λ d, val nums d < val nums i) gone)
  ∧ (∃ w l,
       after_positions nums n k (i + 1) = Ok w
       ∧ deque_of w = Some <$> l
       ∧ (∀ p, 0 ≤ p → i - k + 1 ≤ p ≤ i →
            (∀ q, 0 ≤ q → i - k + 1 ≤ q ≤ i → val nums q ≤ val nums p) →
            p ∈ l)
       ∧ (∀ p q i' w' l',
            p ∈ l → q ∈ l → p < q → val nums p = val nums q →
            i ≤ i' < n →
            after_positions nums n k (i' + 1) = Ok w' →
            deque_of w' = Some <$> l' →
            p ∈ l' → q ∈ l')
       ∧ (∀ d, k - 1 ≤ i → i - k + 1 ≤ d ≤ i →
            (∀ q, i - k + 1 ≤ q ≤ i → val nums q ≤ val nums d) →
            stdout w !! Z.to_nat (i - k + 1) = Some (val nums d))).
Proof.
  intros Hn Hmax Hk Hi. split.
  - destruct (after_positions_inv nums n k i Hn Hmax ltac:(lia) ltac:(lia))
      as (w0 & l & Hrun & Hinv).
    destruct (loop_body_steps nums n k i w0 l Hn Hmax ltac:(lia) Hi Hinv) as
      (w1 & l1 & gone1 & w2 & l2 & gone2 & w3 & w4
       & Hrun1 & Hrun2 & _ & _ & _ & Hl1 & Hw1 & Hw2 & _ & _ & Hgone2 & _).
    exists w0, w1, w2, l2, gone2. repeat (split; [done|]).
    split; [rewrite <- Hl1; by eapply represents_deque_of|].
    split; [by eapply represents_deque_of|done].
  - destruct (after_positions_inv nums n k (i + 1) Hn Hmax ltac:(lia) ltac:(lia))
      as (w & l & Hrun & Hinv).
    exists w, l. split; [done|].
    split; [by eapply represents_deque_of, scan_inv_represents|].
    destruct (inv_candidates _ _ _ _ _ _ Hinv) as [Hsorted Hmem].
    split; [|split].
    + intros p Hp0 Hp Htop. apply Hmem. repeat split; try lia.
      intros q Hq. apply Htop; lia.
    + intros p q i' w' l' Hp Hq Hpq Htie Hi' Hrun' Hdeque' Hp'.
      destruct (after_positions_inv nums n k (i' + 1) Hn Hmax ltac:(lia) ltac:(lia))
        as (w'' & l'' & Hrun'' & Hinv'').
      rewrite Hrun' in Hrun''. injection Hrun'' as <-.
      rewrite (represents_deque_of n w' l'') in Hdeque'
        by (by eapply scan_inv_represents).
      apply (inj (fmap Some)) in Hdeque' as <-.
      destruct (inv_candidates _ _ _ _ _ _ Hinv'') as [_ Hmem'].
      apply Hmem in Hp, Hq. apply Hmem' in Hp'. apply Hmem'.
      repeat split; try lia. intros r Hr. rewrite <- Htie.
      apply Hp'. lia.
    + intros d Hready Hd Htop.
      rewrite (inv_stdout _ _ _ _ _ _ Hinv).
      rewrite list_lookup_fmap, lookup_seqZ_lt by lia. simpl. f_equal.
      rewrite Z2Nat.id, Z.add_0_l by lia.
      apply maximum_window; try lia. intros p Hp. apply Htop. lia.
Qed.

Lemma ties_are_kept_witness :
  (∃ w0 w1 w2 l2 gone,
     after_positions [2; 5; 5; 1; 5] 5 3 2 = Ok w0
     ∧ remove_out_of_window 3 2 w0 = Ok (tt, w1)
     ∧ remove_smaller_from_back [2; 5; 5; 1; 5] 2 w1 = Ok (tt, w2)
     ∧ deque_of w1 = Some <$> (l2 ++ gone)
     ∧ deque_of w2 = Some <$> l2
     ∧ Forall (λ d, val [2; 5; 5; 1; 5] d < val [2; 5; 5; 1; 5] 2) gone)
  ∧ (∃ w l,
       after_positions [2; 5; 5; 1; 5] 5 3 (2 + 1) = Ok w
       ∧ deque_of w = Some <$> l
       ∧ (∀ p, 0 ≤ p → 2 - 3 + 1 ≤ p ≤ 2 →
            (∀ q, 0 ≤ q → 2 - 3 + 1 ≤ q ≤ 2 →
               val [2; 5; 5; 1; 5] q ≤ val [2; 5; 5; 1; 5] p) →
            p ∈ l)
       ∧ (∀ p q i' w' l',
            p ∈ l → q ∈ l → p < q →
            val [2; 5; 5; 1; 5] p = val [2; 5; 5; 1; 5] q →
            2 ≤ i' < 5 →
            after_positions [2; 5; 5; 1; 5] 5 3 (i' + 1) = Ok w' →
            deque_of w' = Some <$> l' →
            p ∈ l' → q ∈ l')
       ∧ (∀ d, 3 - 1 ≤ 2 → 2 - 3 + 1 ≤ d ≤ 2 →
            (∀ q, 2 - 3 + 1 ≤ q ≤ 2 →
               val [2; 5; 5; 1; 5] q ≤ val [2; 5; 5; 1; 5] d) →
            stdout w !! Z.to_nat (2 - 3 + 1) = Some (val [2; 5; 5; 1; 5] d))).
Proof.
  apply (ties_are_kept [2; 5; 5; 1; 5] 5 3 2);
    [reflexivity | unfold INT_MAX; lia | lia | lia].
Defined.

(** C7. Each index [0 .. n-1] is pushed exactly once, in order; the popped
    cells hold distinct indices among those, so no index is popped twice;
    pushes and pops together number at most [2n]. *)
Theorem deque_operations_linear nums n k :
  n = Z.of_nat (length nums) → n ≤ INT_MAX → 1 ≤ k ≤ n →
  ∃ w ps, slidingWindowMaximum nums n k = Ok w
          ∧ pushed (history w) = seqZ 0 n
          ∧ popped (history w) = Some <$> ps
          ∧ NoDup ps
          ∧ ps ⊆ seqZ 0 n
          ∧ Z.of_nat (length (history w)) ≤ 2 * n.
Proof.
  intros Hn Hmax Hk.
  destruct (slidingWindowMaximum_inv nums n k Hn Hmax ltac:(lia))
    as (w & l & _ & Hinv & Hrun).
  destruct Hinv as [_ _ _ Hpushed (ps & Hpopped & Hperm)].
  eexists _, ps. split; [exact Hrun|]. simpl.
  pose proof (NoDup_seqZ 0 n) as Hnodup. rewrite <- Hperm in Hnodup.
  apply NoDup_app in Hnodup as (Hps & _ & _).
  repeat (split; [done|]). split.
  - intros x Hx. rewrite <- Hperm. apply elem_of_app. by left.
  - rewrite history_length, Hpushed, Hpopped, length_fmap, length_seqZ.
    apply Permutation_length in Hperm.
    rewrite length_app, length_seqZ in Hperm. lia.
Qed.

Lemma deque_operations_linear_witness :
  ∃ w ps, slidingWindowMaximum [1; 3; -1; -3; 5; 3; 6; 7] 8 3 = Ok w
          ∧ pushed (history w) = seqZ 0 8
          ∧ popped (history w) = Some <$> ps
          ∧ NoDup ps
          ∧ ps ⊆ seqZ 0 8
          ∧ Z.of_nat (length (history w)) ≤ 2 * 8.
Proof.
  apply (deque_operations_linear [1; 3; -1; -3; 5; 3; 6; 7] 8 3);
    [reflexivity | unfold INT_MAX; lia | lia].
Defined.

(** C8. With [k = 1] the output is the input sequence. *)
Theorem window_of_one_is_identity nums n :
  n = Z.of_nat (length nums) → 1 ≤ n ≤ INT_MAX →
  ∃ w, slidingWindowMaximum nums n 1 = Ok w ∧ stdout w = nums.
Proof.
  intros Hn Hn1.
  destruct (slidingWindowMaximum_inv nums n 1 Hn ltac:(lia) ltac:(unfold INT_MAX; lia))
    as (w & l & _ & Hinv & Hrun).
  destruct Hinv as [_ _ Hout _ _].
  eexists. split; [exact Hrun|]. simpl. rewrite Hout.
  etrans; [|apply (val_seqZ nums n Hn)].
  replace (n - 1 + 1) with n by lia.
  apply list_eq. intros i. rewrite !list_lookup_fmap.
  destruct (seqZ 0 n !! i) as [j|] eqn:Hj; [|done]. simpl. f_equal.
  apply lookup_seqZ in Hj as [-> Hi].
  apply maximum_window; try lia. intros p Hp. by replace p with (0 + Z.of_nat i) by lia.
Qed.

Lemma window_of_one_is_identity_witness :
  ∃ w, slidingWindowMaximum [4; -2; 9] 3 1 = Ok w ∧ stdout w = [4; -2; 9].
Proof.
  apply (window_of_one_is_identity [4; -2; 9] 3);
    [reflexivity | unfold INT_MAX; lia].
Defined.

(** C9. With [k = n] exactly one value is printed, the maximum of the
    whole sequence. *)
Theorem window_of_all_is_maximum nums n :
  n = Z.of_nat (length nums) → 1 ≤ n ≤ INT_MAX →
  ∃ w v, slidingWindowMaximum nums n n = Ok w
         ∧ stdout w = [v]
         ∧ is_max v nums.
Proof.
  intros Hn Hn1.
  destruct (slidingWindowMaximum_inv nums n n Hn ltac:(lia) ltac:(lia))
    as (w & l & _ & Hinv & Hrun).
  destruct Hinv as [_ _ Hout _ _].
  exists (mkWorld None (stdout w) (history w)), (maximum nums).
  split; [exact Hrun|]. simpl. rewrite Hout.
  replace (n - n + 1) with 1 by lia. rewrite seqZ_cons, seqZ_nil by lia.
  rewrite fmap_cons, fmap_nil.
  assert (window nums 0 n = nums) as ->.
  { unfold window. rewrite drop_0. apply take_ge. lia. }
  split; [done|]. apply maximum_is_max. destruct nums; [simpl in Hn; lia|done].
Qed.

Lemma window_of_all_is_maximum_witness :
  ∃ w v, slidingWindowMaximum [9; 11] 2 2 = Ok w
         ∧ stdout w = [v]
         ∧ is_max v [9; 11].
Proof.
  apply (window_of_all_is_maximum [9; 11] 2);
    [reflexivity | unfold INT_MAX; lia].
Defined.

(** C10. On a valid input no access leaves the block of [n] cells and no
    unwritten cell is read: the scan completes without a fault.  After each
    position [i] the cursors satisfy [0 <= front <= rear <= i < n] and
    [size = rear - front + 1 > 0], so the read of the front when printing
    finds the deque non-empty.  When [size] is [0] the two eviction steps
    return without reading the block, whatever it holds. *)
Theorem deque_accesses_in_bounds nums n k :
  n = Z.of_nat (length nums) → n ≤ INT_MAX → 1 ≤ k ≤ n →
  (∃ w, slidingWindowMaximum nums n k = Ok w)
  ∧ (∀ i, 0 ≤ i < n →
       ∃ w dq, after_positions nums n k (i + 1) = Ok w
               ∧ heap w = Some dq
               ∧ Z.of_nat (length (dq_data dq)) = n
               ∧ 0 ≤ dq_front dq ≤ dq_rear dq
               ∧ dq_rear dq ≤ i
               ∧ dq_size dq = dq_rear dq - dq_front dq + 1
               ∧ 0 < dq_size dq)
  ∧ (∀ dq out h i fuel,
       dq_size dq = 0 →
       remove_out_of_window k i (W dq out h) = Ok (tt, W dq out h)
       ∧ remove_smaller_loop (S fuel) nums i (W dq out h) = Ok (tt, W dq out h)).
Proof.
  intros Hn Hmax Hk. split; [|split].
  - destruct (slidingWindowMaximum_inv nums n k Hn Hmax ltac:(lia))
      as (w & l & _ & _ & Hrun).
    by eexists.
  - intros i Hi.
    destruct (after_positions_inv nums n k (i + 1) Hn Hmax ltac:(lia) ltac:(lia))
      as (w & l & Hrun & Hinv).
    destruct (inv_deque _ _ _ _ _ _ Hinv)
      as (dq & Hheap & (Hcap & Hf & Hr & Hs & Hlt & _) & Hrear).
    assert (i ∈ l) as Hin.
    { apply (proj2 (inv_candidates _ _ _ _ _ _ Hinv)). repeat split; lia. }
    assert (0 < length l)%nat by (destruct l; [by apply elem_of_nil in Hin|simpl; lia]).
    exists w, dq. repeat (split; [done || lia|]). lia.
  - intros dq out h i fuel Hsize. split.
    + unfold remove_out_of_window, isEmpty, bind, deref, ret; simpl.
      by rewrite Hsize.
    + simpl. unfold isEmpty, bind, deref, ret; simpl. by rewrite Hsize.
Qed.

Lemma deque_accesses_in_bounds_witness :
  (∃ w, slidingWindowMaximum [1; 3; -1; -3; 5; 3; 6; 7] 8 3 = Ok w)
  ∧ (∀ i, 0 ≤ i < 8 →
       ∃ w dq, after_positions [1; 3; -1; -3; 5; 3; 6; 7] 8 3 (i + 1) = Ok w
               ∧ heap w = Some dq
               ∧ Z.of_nat (length (dq_data dq)) = 8
               ∧ 0 ≤ dq_front dq ≤ dq_rear dq
               ∧ dq_rear dq ≤ i
               ∧ dq_size dq = dq_rear dq - dq_front dq + 1
               ∧ 0 < dq_size dq)
  ∧ (∀ dq out h i fuel,
       dq_size dq = 0 →
       remove_out_of_window 3 i (W dq out h) = Ok (tt, W dq out h)
       ∧ remove_smaller_loop (S fuel) [1; 3; -1; -3; 5; 3; 6; 7] i (W dq out h)
         = Ok (tt, W dq out h)).
Proof.
  apply (deque_accesses_in_bounds [1; 3; -1; -3; 5; 3; 6; 7] 8 3);
    [reflexivity | unfold INT_MAX; lia | lia].
Defined.

(** * Further properties of the code *)

(** ** The scan on an array whose length is not [n] *)

Lemma foreach_inv_within nums n k (m : nat) :
  n ≤ INT_MAX → 1 ≤ k ≤ INT_MAX →
  Z.of_nat m ≤ n → Z.of_nat m ≤ Z.of_nat (length nums) →
  ∃ w l, foreach (seqZ 0 (Z.of_nat m)) (loop_body nums k) (fresh n) = Ok (tt, w)
         ∧ scan_inv nums n k (Z.of_nat m) w l.
Proof.
  intros Hmax Hk. induction m as [|m IH]; intros Hm Hlen.
  - destruct (scan_inv_createDeque nums n k) as (w & [= <-] & Hinv); [lia..|].
    by exists (fresh n), [].
  - destruct IH as (w & l & Hrun & Hinv); [lia..|].
    destruct (loop_body_steps_within nums n k (Z.of_nat m) w l
                ltac:(lia) Hmax Hk ltac:(lia) Hinv) as
      (w1 & l1 & gone1 & w2 & l2 & gone2 & w3 & w4
       & Hrun1 & Hrun2 & Hrun3 & Hrun4 & _ & _ & _ & _ & _ & _ & _ & Hinv').
    exists w4, (l2 ++ [Z.of_nat m]). rewrite seqZ_S, Z.add_0_l. split.
    + rewrite (foreach_snoc _ _ _ _ _ Hrun). unfold loop_body.
      run Hrun1. run Hrun2. by run Hrun3.
    + by replace (Z.of_nat (S m)) with (Z.of_nat m + 1) by lia.
Qed.

Lemma window_take nums n j k :
  0 ≤ j → 0 ≤ k → j + k ≤ n →
  window (take (Z.to_nat n) nums) j k = window nums j k.
Proof.
  intros Hj Hk Hn. unfold window. apply list_eq. intros t.
  rewrite !lookup_take. case_decide; [|done].
  rewrite !lookup_drop, lookup_take_lt by lia. done.
Qed.

Lemma window_app nums more j k :
  0 ≤ j → 0 ≤ k → j + k ≤ Z.of_nat (length nums) →
  window (nums ++ more) j k = window nums j k.
Proof.
  intros Hj Hk Hn. unfold window. apply list_eq. intros t.
  rewrite !lookup_take. case_decide; [|done].
  rewrite !lookup_drop, lookup_app_l by lia. done.
Qed.

Lemma index_past_end nums p :
  Z.of_nat (length nums) ≤ p → index nums p = Fault OutOfBounds.
Proof.
  intros Hp. unfold index. rewrite (proj2 (Z.ltb_ge _ _)) by lia.
  by rewrite lookup_ge_None_2 by lia.
Qed.

(** The iteration at the first position past the end of [nums] reads
    [nums] out of bounds: in the loop condition when the deque is not
    empty there, when printing otherwise. *)
Lemma loop_body_past_end nums n k m w l :
  m = Z.of_nat (length nums) → n ≤ INT_MAX → 1 ≤ k ≤ m → 0 ≤ m < n →
  scan_inv nums n k m w l →
  loop_body nums k m w = Fault OutOfBounds.
Proof.
  intros Hlen Hmax Hk Hm [(dq & Hheap & Hdq & Hrear) Hcand _ _ _].
  destruct w as [hp out h]. simpl in *. subst hp.
  change (mkWorld (Some dq) out h) with (W dq out h).
  destruct (remove_out_of_window_spec n k m dq l out h Hmax) as
    (dq1 & gone1 & l1 & Hrun1 & Hdq1 & Hrear1 & Hl & Hgone1);
    [unfold INT_MIN, INT_MAX in *; lia|done|].
  pose proof (expiry_keeps nums k m l gone1 l1 Hcand Hl Hgone1) as Hmem1.
  unfold loop_body. run Hrun1.
  set (h1 := h ++ (PoppedFront ∘ Some <$> gone1)) in *.
  destruct l1 as [|d t _] using rev_ind.
  - (* nothing to compare with: the read happens when printing *)
    unfold remove_smaller_from_back.
    run (eq_refl : deref (W dq1 out h1) = Ok (dq1, W dq1 out h1)).
    destruct Hdq1 as (Hc1 & Hf1 & Hr1 & Hs1 & Hlt1 & Hcells1). rewrite Hs1. simpl.
    assert (holds n dq1 []) as Hdq1 by done.
    run (isEmpty_spec _ _ _ out h1 Hdq1).
    rewrite bool_decide_eq_true_2 by done. simpl.
    run (ret_ok false (W dq1 out h1)). run (ret_ok tt (W dq1 out h1)).
    destruct (pushBack_spec n dq1 m [] out h1 Hmax Hdq1) as
      (dq3 & Hrun3 & Hdq3 & Hrear3); [lia|].
    run Hrun3. simpl in Hdq3. unfold output_result.
    run (lift_int (k - 1) (W dq3 out (h1 ++ [Pushed m]))
           ltac:(unfold INT_MIN, INT_MAX in *; lia)).
    rewrite (proj2 (Z.leb_le _ _)) by lia.
    run (front_spec _ _ _ _ out (h1 ++ [Pushed m]) Hdq3).
    unfold bind, lift. by rewrite index_past_end by lia.
  - (* the back is compared with [nums[m]] *)
    assert (0 ≤ d < Z.of_nat (length nums)) as Hd.
    { pose proof (proj1 (Hmem1 d) ltac:(apply elem_of_app; right; by left)) as [Hin _].
      apply (proj2 Hcand) in Hin. lia. }
    unfold remove_smaller_from_back.
    run (eq_refl : deref (W dq1 out h1) = Ok (dq1, W dq1 out h1)). simpl.
    run (isEmpty_spec _ _ _ out h1 Hdq1).
    rewrite bool_decide_eq_false_2 by (by destruct t). simpl.
    run (back_spec _ _ _ _ out h1 Hdq1).
    run (lift_index nums d (W dq1 out h1) Hd).
    unfold bind, lift. by rewrite index_past_end by lia.
Qed.

Lemma scan_within nums n k :
  0 ≤ n ≤ Z.of_nat (length nums) → n ≤ INT_MAX → 1 ≤ k ≤ INT_MAX →
  ∃ w l, after_positions nums n k n = Ok w
         ∧ scan_inv nums n k n w l
         ∧ slidingWindowMaximum nums n k
           = Ok (mkWorld None (stdout w) (history w)).
Proof.
  intros Hn Hmax Hk.
  destruct (foreach_inv_within nums n k (Z.to_nat n) Hmax Hk ltac:(lia) ltac:(lia))
    as (w & l & Hrun & Hinv).
  rewrite Z2Nat.id in Hrun, Hinv by lia.
  assert (after_positions nums n k n = Ok w) as Hafter
    by (by rewrite after_positions_fresh, Hrun).
  exists w, l. split; [done|]. split; [done|].
  apply slidingWindowMaximum_after; [done..|].
  destruct (inv_deque _ _ _ _ _ _ Hinv) as (dq & -> & _). by eexists.
Qed.

(** X1. Handed an array longer than [n], the scan works on its first [n]
    values only: it completes and prints the window maxima of that
    prefix. *)
Theorem scan_reads_first_n nums n k :
  0 ≤ n ≤ Z.of_nat (length nums) → n ≤ INT_MAX → 1 ≤ k ≤ INT_MAX →
  ∃ w, slidingWindowMaximum nums n k = Ok w
       ∧ stdout w = brute_force (take (Z.to_nat n) nums) k.
Proof.
  intros Hn Hmax Hk.
  destruct (scan_within nums n k Hn Hmax Hk) as (w & l & _ & Hinv & Hrun).
  eexists. split; [exact Hrun|]. simpl.
  rewrite (inv_stdout _ _ _ _ _ _ Hinv). unfold brute_force.
  rewrite length_take_le, Z2Nat.id by lia.
  apply list_fmap_ext. intros i j [-> Hi]%lookup_seqZ.
  by rewrite window_take by lia.
Qed.

Lemma scan_reads_first_n_witness :
  ∃ w, slidingWindowMaximum [4; 1; 6; 9; 9] 3 2 = Ok w
       ∧ stdout w = brute_force (take (Z.to_nat 3) [4; 1; 6; 9; 9]) 2.
Proof.
  apply (scan_reads_first_n [4; 1; 6; 9; 9] 3 2);
    [simpl; lia | unfold INT_MAX; lia | unfold INT_MAX; lia].
Defined.

(** X2. Handed an array shorter than [n], with a window that fits the
    array, the scan does not stop at the end of the array: it reads
    [nums] out of bounds at the first position past it. *)
Theorem scan_overruns_short_array nums n k :
  1 ≤ k ≤ Z.of_nat (length nums) →
  Z.of_nat (length nums) < n ≤ INT_MAX →
  slidingWindowMaximum nums n k = Fault OutOfBounds.
Proof.
  intros Hk Hn. set (m := Z.of_nat (length nums)) in *.
  destruct (foreach_inv_within nums n k (length nums) ltac:(lia) ltac:(lia)
              ltac:(lia) ltac:(lia)) as (w & l & Hrun & Hinv).
  fold m in Hrun, Hinv.
  unfold slidingWindowMaximum.
  rewrite (bind_ok _ _ boot tt (fresh n) eq_refl). unfold bind at 1.
  rewrite (for_loop_passes_through nums n k m) by lia.
  run Hrun. simpl. rewrite (proj2 (Z.ltb_lt _ _)) by lia.
  by rewrite (bind_fault _ _ _ _ (loop_body_past_end nums n k m w l
                eq_refl ltac:(lia) ltac:(lia) ltac:(lia) Hinv)).
Qed.

Lemma scan_overruns_short_array_witness :
  slidingWindowMaximum [4; 1; 6] 5 2 = Fault OutOfBounds.
Proof.
  apply (scan_overruns_short_array [4; 1; 6] 5 2);
    [simpl; lia | simpl; unfold INT_MAX; lia].
Defined.

(** X3. With [n <= 0] the loop is never entered, whatever [nums] and [k]
    are: the scan completes, prints nothing and leaves the deque
    untouched. *)
Theorem nonpositive_length_completes nums n k :
  n ≤ 0 → slidingWindowMaximum nums n k = Ok (mkWorld None [] []).
Proof.
  intros Hn. unfold slidingWindowMaximum.
  rewrite (bind_ok _ _ boot tt (fresh n) eq_refl).
  assert (for_loop (S (Z.to_nat n)) nums n k 0 (fresh n) = Ok (tt, fresh n)) as Hloop.
  { simpl. by rewrite (proj2 (Z.ltb_ge _ _)) by lia. }
  by rewrite (bind_ok _ _ _ _ _ Hloop).
Qed.

Lemma nonpositive_length_completes_witness :
  slidingWindowMaximum [4; 1; 6] (-2) 2 = Ok (mkWorld None [] []).
Proof. apply (nonpositive_length_completes [4; 1; 6] (-2) 2). lia. Defined.

(** X4. The output is produced online: what the scan prints for [nums]
    is the beginning of what it prints for any extension of [nums]. *)
Theorem output_is_online nums more n n' k :
  n = Z.of_nat (length nums) → 1 ≤ k ≤ n →
  n' = Z.of_nat (length (nums ++ more)) → n' ≤ INT_MAX →
  ∃ w w', slidingWindowMaximum nums n k = Ok w
          ∧ slidingWindowMaximum (nums ++ more) n' k = Ok w'
          ∧ stdout w `prefix_of` stdout w'.
Proof.
  intros Hn Hk Hn' Hmax. rewrite length_app in Hn'.
  destruct (slidingWindowMaximum_inv nums n k Hn ltac:(lia) ltac:(lia))
    as (w & l & _ & Hinv & Hrun).
  destruct (slidingWindowMaximum_inv (nums ++ more) n' k
              ltac:(rewrite length_app; lia) Hmax ltac:(lia))
    as (w' & l' & _ & Hinv' & Hrun').
  eexists _, _. split; [exact Hrun|]. split; [exact Hrun'|]. simpl.
  rewrite (inv_stdout _ _ _ _ _ _ Hinv), (inv_stdout _ _ _ _ _ _ Hinv').
  replace (n' - k + 1) with ((n - k + 1) + Z.of_nat (length more)) by lia.
  rewrite (seqZ_app 0 (n - k + 1) (Z.of_nat (length more))), fmap_app by lia.
  eexists. f_equal. symmetry.
  apply list_fmap_ext. intros i j [-> Hi]%lookup_seqZ.
  by rewrite window_app by lia.
Qed.

Lemma output_is_online_witness :
  ∃ w w', slidingWindowMaximum [4; 1; 6] 3 2 = Ok w
          ∧ slidingWindowMaximum ([4; 1; 6] ++ [0; 9]) 5 2 = Ok w'
          ∧ stdout w `prefix_of` stdout w'.
Proof.
  apply (output_is_online [4; 1; 6] [0; 9] 3 5 2);
    [reflexivity | lia | reflexivity | unfold INT_MAX; lia].
Defined.

(** ** How much the deque holds, and where the maximum sits *)

Lemma before_NoDup nums l : StronglySorted (before nums) l → NoDup l.
Proof.
  induction 1 as [|x l _ IH Hx]; constructor; [|done].
  intros Hin. rewrite Forall_forall in Hx. destruct (Hx x Hin). lia.
Qed.

Lemma candidates_length nums k m l :
  0 ≤ k → 0 ≤ m →
  candidates nums k m l → Z.of_nat (length l) ≤ Z.min k m.
Proof.
  intros Hk Hm [Hsorted Hmem]. apply before_NoDup in Hsorted.
  assert (length l ≤ length (seqZ (m - k) k))%nat as Hlen1.
  { apply submseteq_length, NoDup_submseteq; [done|].
    intros x Hx%Hmem. apply elem_of_seqZ. lia. }
  assert (length l ≤ length (seqZ 0 m))%nat as Hlen2.
  { apply submseteq_length, NoDup_submseteq; [done|].
    intros x Hx%Hmem. apply elem_of_seqZ. lia. }
  rewrite length_seqZ in Hlen1, Hlen2. lia.
Qed.

Lemma candidates_last nums k m l :
  1 ≤ k → 0 ≤ m → candidates nums k (m + 1) l → last l = Some m.
Proof.
  intros Hk Hm [Hsorted Hmem].
  assert (m ∈ l) as Hin by (apply Hmem; repeat split; lia).
  destruct l as [|e t _] using rev_ind; [by apply elem_of_nil in Hin|].
  rewrite last_snoc. f_equal.
  apply elem_of_app in Hin as [Hin| ->%list_elem_of_singleton]; [|done].
  destruct (StronglySorted_app_1_elem_of _ _ _ m e Hsorted Hin ltac:(left)).
  pose proof (proj1 (Hmem e) ltac:(apply elem_of_app; right; by left)). lia.
Qed.

(** X5. The deque never holds more than [k] indices, nor more than the
    positions seen so far, and after a position it is never empty. *)
Theorem deque_holds_at_most_k nums n k i :
  n = Z.of_nat (length nums) → n ≤ INT_MAX → 1 ≤ k ≤ INT_MAX → 0 ≤ i < n →
  ∃ w dq, after_positions nums n k (i + 1) = Ok w
          ∧ heap w = Some dq
          ∧ 1 ≤ dq_size dq ≤ Z.min k (i + 1).
Proof.
  intros Hn Hmax Hk Hi.
  destruct (after_positions_inv nums n k (i + 1) Hn Hmax Hk ltac:(lia))
    as (w & l & Hrun & Hinv).
  destruct (inv_deque _ _ _ _ _ _ Hinv)
    as (dq & Hheap & (_ & _ & _ & Hs & _) & _).
  pose proof (inv_candidates _ _ _ _ _ _ Hinv) as Hcand.
  pose proof (candidates_length nums k (i + 1) l ltac:(lia) ltac:(lia) Hcand).
  pose proof (candidates_last nums k i l ltac:(lia) ltac:(lia) Hcand) as Hlast.
  exists w, dq. repeat (split; [done|]).
  destruct l; [done|]. simpl in *. lia.
Qed.

Lemma deque_holds_at_most_k_witness :
  ∃ w dq, after_positions [1; 3; -1; -3; 5; 3; 6; 7] 8 3 (3 + 1) = Ok w
          ∧ heap w = Some dq
          ∧ 1 ≤ dq_size dq ≤ Z.min 3 (3 + 1).
Proof.
  apply (deque_holds_at_most_k [1; 3; -1; -3; 5; 3; 6; 7] 8 3 3);
    [reflexivity | unfold INT_MAX; lia | unfold INT_MAX; lia | lia].
Defined.

(** X6. After position [i] the back of the deque is [i] and its front is
    the leftmost index of the window [i-k+1 .. i] (cut at [0]) that holds
    the maximum of the window. *)
Theorem front_is_leftmost_maximum nums n k i :
  n = Z.of_nat (length nums) → n ≤ INT_MAX → 1 ≤ k ≤ INT_MAX → 0 ≤ i < n →
  ∃ w l f, after_positions nums n k (i + 1) = Ok w
           ∧ deque_of w = Some <$> l
           ∧ head l = Some f
           ∧ last l = Some i
           ∧ (0 ≤ f ∧ i - k + 1 ≤ f ≤ i)
           ∧ ∀ q, 0 ≤ q → i - k + 1 ≤ q ≤ i →
                  val nums q ≤ val nums f
                  ∧ (val nums q = val nums f → f ≤ q).
Proof.
  intros Hn Hmax Hk Hi.
  destruct (after_positions_inv nums n k (i + 1) Hn Hmax Hk ltac:(lia))
    as (w & l & Hrun & Hinv).
  pose proof (inv_candidates _ _ _ _ _ _ Hinv) as Hcand.
  pose proof (candidates_last nums k i l ltac:(lia) ltac:(lia) Hcand) as Hlast.
  destruct l as [|f t]; [done|].
  exists w, (f :: t), f. split; [done|].
  split; [by eapply represents_deque_of, scan_inv_represents|].
  split; [done|]. split; [done|].
  pose proof (candidates_front nums k (i + 1) f t Hcand) as Htop.
  destruct Hcand as [Hsorted Hmem].
  split; [pose proof (proj1 (Hmem f) ltac:(left)); lia|].
  intros q Hq0 Hq. split; [apply Htop; lia|]. intros Htie.
  assert (q ∈ f :: t) as Hin.
  { apply Hmem. repeat split; try lia. intros r Hr. rewrite Htie. apply Htop; lia. }
  apply elem_of_cons in Hin as [->|Hin]; [lia|].
  apply StronglySorted_cons in Hsorted as [Hf _].
  rewrite Forall_forall in Hf. destruct (Hf q Hin). lia.
Qed.

Lemma front_is_leftmost_maximum_witness :
  ∃ w l f, after_positions [2; 5; 5; 1; 5] 5 3 (3 + 1) = Ok w
           ∧ deque_of w = Some <$> l
           ∧ head l = Some f
           ∧ last l = Some 3
           ∧ (0 ≤ f ∧ 3 - 3 + 1 ≤ f ≤ 3)
           ∧ ∀ q, 0 ≤ q → 3 - 3 + 1 ≤ q ≤ 3 →
                  val [2; 5; 5; 1; 5] q ≤ val [2; 5; 5; 1; 5] f
                  ∧ (val [2; 5; 5; 1; 5] q = val [2; 5; 5; 1; 5] f → f ≤ q).
Proof.
  apply (front_is_leftmost_maximum [2; 5; 5; 1; 5] 5 3 3);
    [reflexivity | unfold INT_MAX; lia | unfold INT_MAX; lia | lia].
Defined.

(** X7. The scan performs [n] pushes and [n - s] pops, where [s] is the
    number of indices still stored when the deque is destroyed; as
    [1 <= s <= k], that is between [2n - k] and [2n - 1] operations. *)
Theorem deque_operations_exact nums n k :
  n = Z.of_nat (length nums) → n ≤ INT_MAX → 1 ≤ k ≤ n →
  ∃ w dq, after_positions nums n k n = Ok w
          ∧ heap w = Some dq
          ∧ slidingWindowMaximum nums n k
            = Ok (mkWorld None (stdout w) (history w))
          ∧ Z.of_nat (length (pushed (history w))) = n
          ∧ Z.of_nat (length (popped (history w))) = n - dq_size dq
          ∧ Z.of_nat (length (history w)) = 2 * n - dq_size dq
          ∧ 1 ≤ dq_size dq ≤ k.
Proof.
  intros Hn Hmax Hk.
  destruct (slidingWindowMaximum_inv nums n k Hn Hmax ltac:(lia))
    as (w & l & Hafter & Hinv & Hrun).
  destruct Hinv as [(dq & Hheap & (_ & _ & _ & Hs & _) & _) Hcand _ Hpushed
                      (ps & Hpopped & Hperm)].
  pose proof (candidates_length nums k n l ltac:(lia) ltac:(lia) Hcand).
  pose proof (candidates_last nums k (n - 1) l ltac:(lia) ltac:(lia)) as Hlast.
  replace (n - 1 + 1) with n in Hlast by lia. specialize (Hlast Hcand).
  apply Permutation_length in Hperm. rewrite length_app, length_seqZ in Hperm.
  exists w, dq. repeat (split; [done|]).
  rewrite history_length, Hpushed, Hpopped, length_fmap, length_seqZ.
  repeat split; try lia. destruct l; [done|simpl in *; lia].
Qed.

Lemma deque_operations_exact_witness :
  ∃ w dq, after_positions [1; 3; -1; -3; 5; 3; 6; 7] 8 3 8 = Ok w
          ∧ heap w = Some dq
          ∧ slidingWindowMaximum [1; 3; -1; -3; 5; 3; 6; 7] 8 3
            = Ok (mkWorld None (stdout w) (history w))
          ∧ Z.of_nat (length (pushed (history w))) = 8
          ∧ Z.of_nat (length (popped (history w))) = 8 - dq_size dq
          ∧ Z.of_nat (length (history w)) = 2 * 8 - dq_size dq
          ∧ 1 ≤ dq_size dq ≤ 3.
Proof.
  apply (deque_operations_exact [1; 3; -1; -3; 5; 3; 6; 7] 8 3);
    [reflexivity | unfold INT_MAX; lia | lia].
Defined.

(** ** The deque on its own *)

Lemma holds_intro cap dq l :
  Z.of_nat (length (dq_data dq)) = cap →
  0 ≤ dq_front dq →
  dq_rear dq = dq_front dq + Z.of_nat (length l) - 1 →
  dq_size dq = Z.of_nat (length l) →
  dq_rear dq < cap →
  stored dq = Some <$> l →
  holds cap dq l.
Proof.
  intros Hcap Hf Hr Hs Hlt Hstored. repeat (split; [done|]).
  intros j d Hj.
  assert (stored dq !! j = Some (Some d)) as Hcell
    by (by rewrite Hstored, list_lookup_fmap, Hj).
  unfold stored in Hcell. rewrite list_lookup_fmap in Hcell.
  rewrite lookup_seqZ_lt in Hcell by (apply lookup_lt_Some in Hj; lia).
  simpl in Hcell. unfold peek in Hcell.
  rewrite (proj2 (Z.ltb_ge _ _)) in Hcell by lia.
  replace (Z.to_nat (dq_front dq + Z.of_nat j))
    with (Z.to_nat (dq_front dq) + j)%nat in Hcell by lia.
  by destruct (dq_data dq !! (Z.to_nat (dq_front dq) + j)%nat) as [[?|]|];
    simplify_eq/=.
Qed.

Lemma pushBack_full cap dq v l out h :
  cap ≤ INT_MAX → holds cap dq l → dq_rear dq + 1 = cap →
  pushBack v (W dq out h) = Fault OutOfBounds.
Proof.
  intros Hmax (Hcap & Hf & Hr & Hs & Hlt & _) Hfull.
  unfold pushBack, bind, deref, lift, store, W; simpl.
  rewrite int_ok by (unfold INT_MIN; lia). simpl.
  rewrite (proj2 (Z.ltb_ge _ _)) by lia.
  by rewrite (proj2 (Z.ltb_ge _ _)) by lia.
Qed.

Lemma foreach_pushBack cap vs :
  cap ≤ INT_MAX →
  ∀ dq l out h,
    holds cap dq l →
    dq_rear dq + Z.of_nat (length vs) < cap →
    ∃ dq', foreach vs pushBack (W dq out h)
             = Ok (tt, W dq' out (h ++ (Pushed <$> vs)))
           ∧ holds cap dq' (l ++ vs)
           ∧ dq_rear dq' = dq_rear dq + Z.of_nat (length vs).
Proof.
  intros Hmax. induction vs as [|v vs IH]; intros dq l out h Hdq Hroom; simpl.
  - exists dq. rewrite !app_nil_r. repeat (split; [done|]). lia.
  - simpl in Hroom.
    destruct (pushBack_spec cap dq v l out h Hmax Hdq ltac:(lia))
      as (dq1 & Hrun1 & Hdq1 & Hrear1).
    destruct (IH dq1 (l ++ [v]) out (h ++ [Pushed v]) Hdq1 ltac:(lia))
      as (dq' & Hrun & Hdq' & Hrear').
    exists dq'. run Hrun1. rewrite Hrun, <- !app_assoc.
    rewrite <- app_assoc in Hdq'. simpl in *.
    repeat (split; [done|]). lia.
Qed.


(** X9. Where the block has room, [pushBack] appends its value: [back]
    then returns it, [front] returns what it returned before, or the new
    value if the deque was empty, and the deque is not empty. *)
Theorem pushBack_appends cap dq v l out h :
  cap ≤ INT_MAX → holds cap dq l → dq_rear dq + 1 < cap →
  ∃ dq' w', pushBack v (W dq out h) = Ok (tt, w')
            ∧ w' = W dq' out (h ++ [Pushed v])
            ∧ holds cap dq' (l ++ [v])
            ∧ back w' = Ok (v, w')
            ∧ front w' = Ok (default v (head l), w')
            ∧ isEmpty w' = Ok (false, w').
Proof.
  intros Hmax Hdq Hroom.
  destruct (pushBack_spec cap dq v l out h Hmax Hdq Hroom)
    as (dq' & Hrun & Hdq' & _).
  exists dq', (W dq' out (h ++ [Pushed v])). repeat (split; [done|]).
  split; [by apply (back_spec cap _ _ l)|]. split.
  - destruct l as [|d t]; by apply (front_spec cap _ _ _ _ _ Hdq').
  - rewrite (isEmpty_spec cap dq' (l ++ [v])) by done.
    by rewrite bool_decide_eq_false_2 by (by destruct l).
Qed.

Lemma pushBack_appends_witness :
  ∃ dq' w', pushBack 9 (W (mkDeque [Some 7; Some 8; None] 0 1 2) [] [])
              = Ok (tt, w')
            ∧ w' = W dq' [] ([] ++ [Pushed 9])
            ∧ holds 3 dq' ([7; 8] ++ [9])
            ∧ back w' = Ok (9, w')
            ∧ front w' = Ok (default 9 (head [7; 8]), w')
            ∧ isEmpty w' = Ok (false, w').
Proof.
  apply (pushBack_appends 3 (mkDeque [Some 7; Some 8; None] 0 1 2) 9 [7; 8]);
    [unfold INT_MAX; lia
    | apply holds_intro; simpl; try lia; reflexivity
    | simpl; lia].
Defined.

(** X10. [pushBack] followed by [popBack] gives back the deque as it
    was: the same stored list and the same cursors and size. *)
Theorem pushBack_popBack_restores cap dq v l out h :
  cap ≤ INT_MAX → holds cap dq l → dq_rear dq + 1 < cap →
  ∃ dq', (pushBack v;; popBack) (W dq out h)
           = Ok (tt, W dq' out (h ++ [Pushed v; PoppedBack (Some v)]))
         ∧ holds cap dq' l
         ∧ dq_front dq' = dq_front dq
         ∧ dq_rear dq' = dq_rear dq
         ∧ dq_size dq' = dq_size dq.
Proof.
  intros Hmax Hdq Hroom.
  destruct (pushBack_spec cap dq v l out h Hmax Hdq Hroom)
    as (dq1 & Hrun1 & Hdq1 & Hrear1).
  destruct (popBack_spec cap dq1 v l out (h ++ [Pushed v]) Hmax Hdq1)
    as (dq' & Hrun & Hdq' & Hrear').
  exists dq'. run Hrun1. rewrite Hrun, <- app_assoc.
  repeat (split; [done|]).
  destruct Hdq as (_ & _ & Hr & Hs & _), Hdq' as (_ & _ & Hr' & Hs' & _).
  repeat split; lia.
Qed.

Lemma pushBack_popBack_restores_witness :
  ∃ dq', (pushBack 9;; popBack) (W (mkDeque [Some 7; Some 8; None] 0 1 2) [] [])
           = Ok (tt, W dq' [] ([] ++ [Pushed 9; PoppedBack (Some 9)]))
         ∧ holds 3 dq' [7; 8]
         ∧ dq_front dq' = dq_front (mkDeque [Some 7; Some 8; None] 0 1 2)
         ∧ dq_rear dq' = dq_rear (mkDeque [Some 7; Some 8; None] 0 1 2)
         ∧ dq_size dq' = dq_size (mkDeque [Some 7; Some 8; None] 0 1 2).
Proof.
  apply (pushBack_popBack_restores 3 (mkDeque [Some 7; Some 8; None] 0 1 2) 9 [7; 8]);
    [unfold INT_MAX; lia
    | apply holds_intro; simpl; try lia; reflexivity
    | simpl; lia].
Defined.

(** X11. The block is not used as a ring: once [rear] has reached the
    last cell, [pushBack] writes past the block, however few values the
    deque holds, even none. *)
Theorem pushBack_past_block_faults cap dq v l out h :
  cap ≤ INT_MAX → holds cap dq l → dq_rear dq + 1 = cap →
  pushBack v (W dq out h) = Fault OutOfBounds.
Proof. apply pushBack_full. Qed.

Lemma pushBack_past_block_faults_witness :
  pushBack 9 (W (mkDeque [Some 7; Some 8] 2 1 0) [] []) = Fault OutOfBounds.
Proof.
  apply (pushBack_past_block_faults 2 (mkDeque [Some 7; Some 8] 2 1 0) 9 []);
    [unfold INT_MAX; lia
    | apply holds_intro; simpl; try lia; reflexivity
    | reflexivity].
Defined.

(** X12. [popFront] and [popBack] do not look at [size] either: on an
    empty deque they succeed, leave [size] at [-1], and [isEmpty] then
    reports the deque non-empty. *)
Theorem pop_of_empty_underflows cap dq out h :
  cap < INT_MAX → holds cap dq [] →
  (∃ dq' w', popFront (W dq out h) = Ok (tt, w')
             ∧ heap w' = Some dq'
             ∧ dq_size dq' = -1
             ∧ isEmpty w' = Ok (false, w'))
  ∧ (∃ dq' w', popBack (W dq out h) = Ok (tt, w')
               ∧ heap w' = Some dq'
               ∧ dq_size dq' = -1
               ∧ isEmpty w' = Ok (false, w')).
Proof.
  intros Hmax (Hcap & Hf & Hr & Hs & Hlt & _). simpl in Hr, Hs. split.
  - eexists _, _. unfold popFront, bind, deref, lift, assign, record, W; simpl.
    rewrite !int_ok by (unfold INT_MIN; lia). simpl.
    split; [reflexivity|]. simpl. split; [reflexivity|]. simpl.
    split; [lia|]. unfold isEmpty, bind, deref, ret; simpl. by rewrite Hs.
  - eexists _, _. unfold popBack, bind, deref, lift, assign, record, W; simpl.
    rewrite !int_ok by (unfold INT_MIN; lia). simpl.
    split; [reflexivity|]. simpl. split; [reflexivity|]. simpl.
    split; [lia|]. unfold isEmpty, bind, deref, ret; simpl. by rewrite Hs.
Qed.

Lemma pop_of_empty_underflows_witness :
  (∃ dq' w', popFront (W (mkDeque [None; None] 0 (-1) 0) [] []) = Ok (tt, w')
             ∧ heap w' = Some dq'
             ∧ dq_size dq' = -1
             ∧ isEmpty w' = Ok (false, w'))
  ∧ (∃ dq' w', popBack (W (mkDeque [None; None] 0 (-1) 0) [] []) = Ok (tt, w')
               ∧ heap w' = Some dq'
               ∧ dq_size dq' = -1
               ∧ isEmpty w' = Ok (false, w')).
Proof.
  apply (pop_of_empty_underflows 2 (mkDeque [None; None] 0 (-1) 0));
    [unfold INT_MAX; lia | apply holds_intro; simpl; try lia; reflexivity].
Defined.

(** X13. [front] returns the oldest stored value and [popFront] removes
    exactly that one, keeping the others in order. *)
Theorem front_popFront_serves_oldest cap dq d t out h :
  cap ≤ INT_MAX → holds cap dq (d :: t) →
  ∃ dq', (x <- front;; popFront;; ret x) (W dq out h)
           = Ok (d, W dq' out (h ++ [PoppedFront (Some d)]))
         ∧ holds cap dq' t.
Proof.
  intros Hmax Hdq.
  destruct (popFront_spec cap dq d t out h Hmax Hdq) as (dq' & Hrun & Hdq' & _).
  exists dq'. split; [|done].
  run (front_spec _ _ _ _ out h Hdq). by run Hrun.
Qed.

Lemma front_popFront_serves_oldest_witness :
  ∃ dq', (x <- front;; popFront;; ret x)
           (W (mkDeque [Some 7; Some 8; None] 0 1 2) [] [])
           = Ok (7, W dq' [] ([] ++ [PoppedFront (Some 7)]))
         ∧ holds 3 dq' [8].
Proof.
  apply (front_popFront_serves_oldest 3 (mkDeque [Some 7; Some 8; None] 0 1 2) 7 [8]);
    [unfold INT_MAX; lia | apply holds_intro; simpl; try lia; reflexivity].
Defined.

(** X14. [back] returns the newest stored value and [popBack] removes
    exactly that one, keeping the others in order. *)
Theorem back_popBack_serves_newest cap dq d t out h :
  cap ≤ INT_MAX → holds cap dq (t ++ [d]) →
  ∃ dq', (x <- back;; popBack;; ret x) (W dq out h)
           = Ok (d, W dq' out (h ++ [PoppedBack (Some d)]))
         ∧ holds cap dq' t.
Proof.
  intros Hmax Hdq.
  destruct (popBack_spec cap dq d t out h Hmax Hdq) as (dq' & Hrun & Hdq' & _).
  exists dq'. split; [|done].
  run (back_spec _ _ _ _ out h Hdq). by run Hrun.
Qed.

Lemma back_popBack_serves_newest_witness :
  ∃ dq', (x <- back;; popBack;; ret x)
           (W (mkDeque [Some 7; Some 8; None] 0 1 2) [] [])
           = Ok (8, W dq' [] ([] ++ [PoppedBack (Some 8)]))
         ∧ holds 3 dq' [7].
Proof.
  apply (back_popBack_serves_newest 3 (mkDeque [Some 7; Some 8; None] 0 1 2) 8 [7]);
    [unfold INT_MAX; lia | apply holds_intro; simpl; try lia; reflexivity].
Defined.

(** X15. A new deque takes as many pushes as its capacity: the values
    are then stored in the order they were pushed. *)
Theorem pushes_are_stored_in_order cap vs w :
  Z.of_nat (length vs) ≤ cap ≤ INT_MAX →
  ∃ w', (createDeque cap;; foreach vs pushBack) w = Ok (tt, w')
        ∧ deque_of w' = Some <$> vs
        ∧ stdout w' = stdout w.
Proof.
  intros Hcap.
  destruct (foreach_pushBack cap vs ltac:(lia) _ [] (stdout w) (history w)
              (holds_createDeque cap ltac:(lia)) ltac:(simpl; lia))
    as (dq' & Hrun & Hdq' & _).
  eexists. split; [|split].
  - rewrite (bind_ok _ _ w tt _ eq_refl). exact Hrun.
  - by apply (represents_deque_of cap); exists dq'.
  - done.
Qed.

Lemma pushes_are_stored_in_order_witness :
  ∃ w', (createDeque 3;; foreach [5; 1; 4] pushBack) boot = Ok (tt, w')
        ∧ deque_of w' = Some <$> [5; 1; 4]
        ∧ stdout w' = stdout boot.
Proof.
  apply (pushes_are_stored_in_order 3 [5; 1; 4] boot).
  simpl; unfold INT_MAX; lia.
Defined.

(** X16. One push more than the capacity writes past the block, whether
    or not values were popped in between (see X11); here, with no pops. *)
Theorem pushes_beyond_capacity_fault cap vs w :
  0 ≤ cap ≤ INT_MAX → cap < Z.of_nat (length vs) →
  (createDeque cap;; foreach vs pushBack) w = Fault OutOfBounds.
Proof.
  intros Hcap Hlen.
  rewrite <- (take_drop (Z.to_nat cap) vs).
  destruct (drop (Z.to_nat cap) vs) as [|v rest] eqn:Hdrop.
  { apply (f_equal length) in Hdrop. rewrite length_drop in Hdrop. simpl in Hdrop. lia. }
  destruct (foreach_pushBack cap (take (Z.to_nat cap) vs) ltac:(lia) _ []
              (stdout w) (history w) (holds_createDeque cap ltac:(lia))
              ltac:(rewrite length_take; simpl; lia))
    as (dq' & Hrun & Hdq' & Hrear).
  rewrite length_take in Hrear. simpl in Hrear.
  rewrite (bind_ok _ _ w tt _ eq_refl), foreach_app.
  run Hrun. simpl.
  by rewrite (bind_fault _ _ _ _ (pushBack_full cap dq' v _ _ _
                ltac:(lia) Hdq' ltac:(lia))).
Qed.

Lemma pushes_beyond_capacity_fault_witness :
  (createDeque 2;; foreach [5; 1; 4] pushBack) boot = Fault OutOfBounds.
Proof.
  apply (pushes_beyond_capacity_fault 2 [5; 1; 4] boot);
    [unfold INT_MAX; lia | simpl; lia].
Defined.

(** ** A window size so negative that the arithmetic overflows *)

Lemma int_overflow z : z < INT_MIN ∨ INT_MAX < z → int z = Fault Overflow.
Proof.
  intros Hz. unfold int, in_int.
  destruct (Z.leb_spec INT_MIN z), (Z.leb_spec z INT_MAX); simpl; try done; lia.
Qed.

Lemma eviction_of_empty nums k i dq out h fuel :
  dq_size dq = 0 →
  remove_out_of_window k i (W dq out h) = Ok (tt, W dq out h)
  ∧ remove_smaller_loop (S fuel) nums i (W dq out h) = Ok (tt, W dq out h).
Proof.
  intros Hsize. split.
  - unfold remove_out_of_window, isEmpty, bind, deref, ret; simpl. by rewrite Hsize.
  - simpl. unfold isEmpty, bind, deref, ret; simpl. by rewrite Hsize.
Qed.

(** The iteration at position [m = INT_MAX + k + 1], reached with the
    deque holding [m-1] alone (or nothing when [m = 0]). *)
Lemma loop_body_overflows nums n k m dq out h :
  n ≤ INT_MAX → 0 ≤ m < n → k = m - INT_MAX - 1 →
  holds n dq (if decide (m = 0) then [] else [m - 1]) →
  dq_rear dq < m →
  loop_body nums k m (W dq out h) = Fault Overflow.
Proof.
  intros Hmax Hm Hk Hdq Hrear. unfold loop_body. case_decide as Hm0.
  - pose proof Hdq as (_ & _ & _ & Hs & _). simpl in Hs.
    destruct (eviction_of_empty nums k m dq out h (Z.to_nat (dq_size dq)) Hs)
      as [Hrun1 Hrun2].
    run Hrun1. unfold remove_smaller_from_back.
    run (eq_refl : deref (W dq out h) = Ok (dq, W dq out h)).
    run Hrun2.
    destruct (pushBack_spec n dq m [] out h Hmax Hdq ltac:(lia))
      as (dq3 & Hrun3 & _).
    run Hrun3. unfold output_result, bind, lift.
    by rewrite int_overflow by (unfold INT_MIN, INT_MAX in *; lia).
  - unfold remove_out_of_window.
    run (isEmpty_spec _ _ _ out h Hdq).
    rewrite bool_decide_eq_false_2 by done. simpl.
    run (front_spec _ _ _ _ out h Hdq).
    unfold bind, lift.
    by rewrite int_overflow by (unfold INT_MIN, INT_MAX in *; lia).
Qed.

(** X17. A window size below [n - 1 - INT_MAX] makes the scan compute
    [i - k], or [k - 1] for [k = INT_MIN], outside the range of [int]. *)
Theorem extreme_window_overflows nums n k :
  n = Z.of_nat (length nums) → 1 ≤ n ≤ INT_MAX →
  INT_MIN ≤ k < n - 1 - INT_MAX →
  slidingWindowMaximum nums n k = Fault Overflow.
Proof.
  intros Hn Hn1 Hk. set (m := INT_MAX + k + 1).
  assert (0 ≤ m < n) as Hm by (unfold m, INT_MIN, INT_MAX in *; lia).
  unfold slidingWindowMaximum.
  rewrite (bind_ok _ _ boot tt (fresh n) eq_refl). unfold bind at 1.
  rewrite (for_loop_passes_through nums n k m) by lia.
  assert (∃ dq h, foreach (seqZ 0 m) (loop_body nums k) (fresh n)
                    = Ok (tt, W dq (val nums <$> seqZ 0 m) h)
                  ∧ holds n dq (if decide (m = 0) then [] else [m - 1])
                  ∧ dq_rear dq < m) as (dq & h & Hrun & Hdq & Hrear).
  { destruct (decide (m = 0)) as [Hm0|Hm0].
    - rewrite Hm0. eexists _, []. split; [reflexivity|].
      split; [apply holds_createDeque; lia|simpl; lia].
    - destruct (foreach_nonpositive_window_upto nums n k (Z.to_nat m) Hn
                  ltac:(lia) ltac:(unfold m, INT_MIN, INT_MAX in *; lia)
                  ltac:(lia) ltac:(unfold m in *; lia))
        as (dq & h & Hrun & Hdq & Hrear).
      rewrite Z2Nat.id in Hrun, Hdq, Hrear by lia.
      exists dq, h. split; [done|]. split; [|done].
      by destruct (Z.to_nat m) eqn:Hnat; [lia|]. }
  run Hrun. simpl. rewrite (proj2 (Z.ltb_lt _ _)) by lia.
  by rewrite (bind_fault _ _ _ _ (loop_body_overflows nums n k m dq _ h
                ltac:(lia) Hm ltac:(unfold m; lia) Hdq Hrear)).
Qed.

Lemma extreme_window_overflows_witness :
  slidingWindowMaximum [4; 1; 6] 3 (-2147483647) = Fault Overflow.
Proof.
  apply (extreme_window_overflows [4; 1; 6] 3 (-2147483647));
    [reflexivity | unfold INT_MAX; lia | unfold INT_MIN, INT_MAX; lia].
Defined.
